(** * solwatch: the retry-delay generator, the wallet store and the
    subscription engine, embedded from the Go sources.

    Numeric conventions used throughout:
    - [time.Duration] and [int] are 64-bit integers, modelled as [Z];
      the one integer operation that can leave the range ([attempt++])
      has its wrap-around written out;
    - [float64] quantities are modelled as exact rationals [Q]: the
      development reasons about the arithmetic the code writes down, not
      about binary rounding, infinities or NaN;
    - Go strings are byte sequences, modelled as [string] (a list of
      8-bit [ascii]). *)

From Stdlib Require Import ZArith QArith Qround Qabs Qpower Qminmax Lqa Lia List
  Ascii String.
From stdpp Require Import base option gmap strings list sorting.

#[local] Set Warnings "-register-all".
#[local] Open Scope Z_scope.

(* ================================================================== *)
(** ** package util: exponential backoff with jitter *)
(* ================================================================== *)

Module util.

(** [time.Duration], a count of nanoseconds, and [float64]. *)
Abbreviation Duration := Z (only parsing).
Abbreviation float64 := Q (only parsing).

Definition Second : Duration := 1000000000.

(** Go's [int] on a 64-bit platform. *)
Definition wrap_int (z : Z) : Z := (z + 2 ^ 63) mod 2 ^ 64 - 2 ^ 63.

(** Strict comparison of two [float64] values, as a boolean. *)
Definition Qltb (x y : float64) : bool := negb (Qle_bool y x).

(** Conversion [float64(d)] of an integer. *)
Definition to_float (z : Z) : float64 := inject_Z z.

(** Conversions [int(x)] and [time.Duration(x)] of a [float64]:
    truncation toward zero. *)
Definition trunc (x : float64) : Z := Z.quot (Qnum x) (Zpos (Qden x)).

Record Backoff := mkBackoff {
  min : Duration;
  max : Duration;
  factor : float64;   (* growth multiplier, e.g. 2.0 *)
  jitter : float64;   (* percentage of randomness, e.g. 0.2 *)
  attempt : Z
}.

(** [NewBackoff]: the four sanitising tests, in source order.  (The call
    to [rand.Seed] only touches the shared generator, whose draws are an
    input of [Next] below.) *)
Definition NewBackoff (min max : Duration) (factor jitter : float64) : Backoff :=
  let min := if min <=? 0 then Second else min in
  let max := if max <? min then min else max in
  let factor := if Qltb factor 1.1%Q then 2.0%Q else factor in
  let jitter := if Qltb jitter 0%Q then 0%Q else jitter in
  let jitter := if Qltb 1%Q jitter then 1%Q else jitter in
  {| min := min; max := max; factor := factor; jitter := jitter; attempt := 0 |}.

(** The loop of [pow]: [n] iterations of [result *= base]. *)
Fixpoint pow_loop (n : nat) (base result : float64) : float64 :=
  match n with
  | O => result
  | S k => pow_loop k base (result * base)%Q
  end.

(** [pow(base, exp)]: the loop runs while [i < int(exp)], that is
    [int(exp)] times when that is positive and not at all otherwise. *)
Definition pow (base exp : float64) : float64 :=
  pow_loop (Z.to_nat (trunc exp)) base 1%Q.

(** The "exponential step" of [Next]: [min * factor^attempt], capped at
    [max]. *)
Definition raw (b : Backoff) : float64 :=
  let backoff := (to_float (min b) * pow (factor b) (to_float (attempt b)))%Q in
  if Qltb (to_float (max b)) backoff then to_float (max b) else backoff.

(** [(rand.Float64()*2 - 1) * b.jitter], for a draw [r] of
    [rand.Float64()]. *)
Definition jitter_of (b : Backoff) (r : float64) : float64 :=
  ((r * 2 - 1) * jitter b)%Q.

Definition bump (b : Backoff) : Backoff :=
  {| min := min b; max := max b; factor := factor b; jitter := jitter b;
     attempt := wrap_int (attempt b + 1) |}.

(** [Next], with the draw of [rand.Float64()] as the argument [r]: the
    returned delay and the Backoff after the call.  The mutex only
    serialises callers and is not represented. *)
Definition Next (b : Backoff) (r : float64) : Duration * Backoff :=
  let backoff := raw b in
  let b := bump b in
  let backoff :=
    if Qltb 0%Q (jitter b) then (backoff * (1 + jitter_of b r))%Q else backoff in
  let backoff :=
    if Qltb backoff (to_float (min b)) then to_float (min b) else backoff in
  (trunc backoff, b).

Definition Reset (b : Backoff) : Backoff :=
  {| min := min b; max := max b; factor := factor b; jitter := jitter b;
     attempt := 0 |}.

(** The invariant that [NewBackoff] establishes. *)
Record wf (b : Backoff) : Prop := mk_wf {
  wf_min : 0 < min b;
  wf_max : min b <= max b;
  wf_factor : (1.1 <= factor b)%Q;
  wf_jitter : (0 <= jitter b)%Q ∧ (jitter b <= 1)%Q
}.

(** The largest [int]. *)
Definition max_int : Z := 2 ^ 63 - 1.

(** The use a Backoff is put to by its owner: calls of [Next], each with
    its draw, and calls of [Reset]. *)
Inductive op : Type :=
| OpNext (r : float64)
| OpReset.

Definition apply_op (b : Backoff) (o : op) : Backoff :=
  match o with
  | OpNext r => (Next b r).2
  | OpReset => Reset b
  end.

Definition run_ops (ops : list op) (b : Backoff) : Backoff :=
  fold_left apply_op ops b.

(** The delay [Next] returns in state [b] on the draw [r], and its sum
    and mean over a finite sample of draws. *)
Definition delay (b : Backoff) (r : float64) : Duration := (Next b r).1.

Definition total_delay (b : Backoff) (rs : list float64) : Z :=
  fold_right (λ r acc, delay b r + acc) 0 rs.

Definition mean_delay (b : Backoff) (rs : list float64) : Q :=
  (inject_Z (total_delay b rs) / inject_Z (Z.of_nat (List.length rs)))%Q.

(** A draw of [rand.Float64()] lies in [[0, 1)]. *)
Definition is_draw (r : float64) : Prop := (0 <= r)%Q ∧ (r < 1)%Q.

End util.

(* ================================================================== *)
(** ** The functions of Go's [strings] package that the sources call *)
(* ================================================================== *)

Module gostrings.

Definition bytes (l : list N) : string :=
  string_of_list_ascii (List.map ascii_of_N l).

(** The UTF-8 encodings of the runes for which [unicode.IsSpace] holds:
    the six ASCII blanks, U+0085, U+00A0, U+1680, U+2000..U+200A,
    U+2028, U+2029, U+202F, U+205F and U+3000. *)
Definition spaceRunes : list string :=
  List.map bytes
    [ [9]; [10]; [11]; [12]; [13]; [32];
      [194; 133]; [194; 160]; [225; 154; 128];
      [226; 128; 128]; [226; 128; 129]; [226; 128; 130]; [226; 128; 131];
      [226; 128; 132]; [226; 128; 133]; [226; 128; 134]; [226; 128; 135];
      [226; 128; 136]; [226; 128; 137]; [226; 128; 138];
      [226; 128; 168]; [226; 128; 169]; [226; 128; 175];
      [226; 129; 159]; [227; 128; 128] ]%N.

(** [stripPrefix p s]: the rest of [s] after its prefix [p], if [p] is
    one. *)
Fixpoint stripPrefix (p s : string) : option string :=
  match p, s with
  | EmptyString, _ => Some s
  | String a p', String b s' => if Ascii.eqb a b then stripPrefix p' s' else None
  | String _ _, EmptyString => None
  end.

Fixpoint stripAny (ps : list string) (s : string) : option string :=
  match ps with
  | [] => None
  | p :: ps' =>
      match stripPrefix p s with
      | Some rest => Some rest
      | None => stripAny ps' s
      end
  end.

(** Drop [runes] from the front of [s] for as long as one of them is
    there. *)
Fixpoint trimLeftLoop (fuel : nat) (runes : list string) (s : string) : string :=
  match fuel with
  | O => s
  | S fuel' =>
      match stripAny runes s with
      | Some rest => trimLeftLoop fuel' runes rest
      | None => s
      end
  end.

Definition rev (s : string) : string :=
  string_of_list_ascii (List.rev (list_ascii_of_string s)).

Definition TrimLeftSpace (s : string) : string :=
  trimLeftLoop (String.length s) spaceRunes s.

Definition TrimRightSpace (s : string) : string :=
  rev (trimLeftLoop (String.length s) (List.map rev spaceRunes) (rev s)).

(** [strings.TrimSpace]: leading and trailing white space removed. *)
Definition TrimSpace (s : string) : string :=
  TrimRightSpace (TrimLeftSpace s).

Fixpoint IndexByte (c : ascii) (s : string) : bool :=
  match s with
  | EmptyString => false
  | String a s' => Ascii.eqb a c || IndexByte c s'
  end.

(** [strings.ContainsAny(s, chars)] for a set [chars] of ASCII
    characters. *)
Fixpoint ContainsAny (s chars : string) : bool :=
  match s with
  | EmptyString => false
  | String a s' => IndexByte a chars || ContainsAny s' chars
  end.

Definition isPrefix (p s : string) : bool :=
  match stripPrefix p s with Some _ => true | None => false end.

(** [strings.Contains(s, substr)]. *)
Fixpoint Contains (s substr : string) : bool :=
  isPrefix substr s ||
  match s with
  | EmptyString => false
  | String _ s' => Contains s' substr
  end.

Definition lowerByte (c : ascii) : ascii :=
  let n := N_of_ascii c in
  if ((65 <=? n) && (n <=? 90))%N then ascii_of_N (n + 32) else c.

(** [strings.ToLower] on the bytes of the ASCII range: ['A'..'Z'] move to
    ['a'..'z'].  Bytes from 0x80 up are kept as they are; Go maps the
    runes they encode to their lower case, which yields no ASCII letter
    other than [i] and [k]. *)
Fixpoint ToLower (s : string) : string :=
  match s with
  | EmptyString => EmptyString
  | String c s' => String (lowerByte c) (ToLower s')
  end.

End gostrings.

(* ================================================================== *)
(** ** package store: the persisted set of wallets *)
(* ================================================================== *)

Module store.

Definition walletsBucket : string := "wallets".

(** *** base58 (the [b58.Decode] of the imported package)

    Standard base58 over the Bitcoin alphabet: the digits are read as a
    big-endian number in base 58, written out in base 256, and every
    leading ['1'] of the text stands for one leading zero byte.  An empty
    text and a character outside the alphabet are errors. *)

Definition b58Alphabet : string :=
  "123456789ABCDEFGHJKLMNPQRSTUVWXYZabcdefghijkmnopqrstuvwxyz".

Fixpoint indexOf (c : ascii) (s : string) (i : N) : option N :=
  match s with
  | EmptyString => None
  | String a s' => if Ascii.eqb a c then Some i else indexOf c s' (i + 1)%N
  end.

Definition b58Digit (c : ascii) : option N := indexOf c b58Alphabet 0%N.

Fixpoint b58Value (s : string) (acc : N) : option N :=
  match s with
  | EmptyString => Some acc
  | String c s' =>
      match b58Digit c with
      | Some d => b58Value s' (acc * 58 + d)%N
      | None => None
      end
  end.

Fixpoint leadingOnes (s : string) : nat :=
  match s with
  | String "1"%char s' => S (leadingOnes s')
  | _ => O
  end.

(** The base-256 digits of a positive number, most significant first. *)
Fixpoint bytesOfPos (fuel : nat) (v : N) (acc : list N) : list N :=
  match fuel with
  | O => acc
  | S fuel' =>
      if (v =? 0)%N then acc
      else bytesOfPos fuel' (v / 256)%N ((v mod 256)%N :: acc)
  end.

Definition bytesOfN (v : N) : list N := bytesOfPos (N.to_nat (N.size v)) v [].

Definition b58Decode (s : string) : option (list N) :=
  match s with
  | EmptyString => None
  | _ =>
      match b58Value s 0%N with
      | Some v => Some (List.repeat 0%N (leadingOnes s) ++ bytesOfN v)
      | None => None
      end
  end.

(** The characters of the alphabet, and the texts made of them. *)
Definition b58char (c : ascii) : bool :=
  match b58Digit c with Some _ => true | None => false end.

Fixpoint allB58 (s : string) : bool :=
  match s with
  | EmptyString => true
  | String c s' => b58char c && allB58 s'
  end.

(** *** Errors *)

Inductive error : Type :=
| ErrEmpty                        (* "empty" *)
| ErrWhitespace                   (* "contains whitespace" *)
| ErrBase58                       (* "base58 decode: ..." *)
| ErrDecodedLength (n : nat)      (* "decoded length n != 32" *)
| ErrInvalidAddress (e : error)   (* "invalid address: ..." *)
| ErrContext                      (* ctx.Err() *)
| ErrBucketMissing.               (* "wallets bucket missing" *)

(** [validateSolanaAddress]: [None] is Go's [nil] error. *)
Definition validateSolanaAddress (addr : string) : option error :=
  if String.eqb addr "" then Some ErrEmpty
  else if gostrings.ContainsAny addr (gostrings.bytes [32; 9; 13; 10]%N)
  then Some ErrWhitespace
  else
    match b58Decode addr with
    | None => Some ErrBase58
    | Some decoded =>
        if negb (List.length decoded =? 32)%nat
        then Some (ErrDecodedLength (List.length decoded))
        else None
    end.

(** *** The database

    A bbolt file holds named buckets, each a finite map from keys to
    values.  [Update] runs a function inside a read-write transaction:
    its changes are committed when it returns [nil] and rolled back when
    it returns an error. *)

Abbreviation Bucket := (gmap string string) (only parsing).
Abbreviation Bolt := (gmap string (gmap string string)) (only parsing).

(** [context.Context], as far as the package looks at it. *)
Record Context := { done : bool }.

Definition Update (fn : Bolt → option error * Bolt) (b : Bolt)
  : option error * Bolt :=
  match fn b with
  | (None, b') => (None, b')
  | (Some e, _) => (Some e, b)
  end.

(** The part of [NewBolt] after the file is open:
    [CreateBucketIfNotExists]. *)
Definition ensureBucket (b : Bolt) : Bolt :=
  match b !! walletsBucket with
  | Some _ => b
  | None => <[walletsBucket := ∅]> b
  end.

(** [AddWallet]; [now] is the text of [time.Now()]. *)
Definition AddWallet (ctx : Context) (now : string) (addr : string) (b : Bolt)
  : option error * Bolt :=
  let addr := gostrings.TrimSpace addr in
  match validateSolanaAddress addr with
  | Some err => (Some (ErrInvalidAddress err), b)
  | None =>
      if done ctx then (Some ErrContext, b)
      else
        Update (λ tx,
          match tx !! walletsBucket with
          | None => (Some ErrBucketMissing, tx)
          | Some bkt =>
              match bkt !! addr with
              | Some _ => (None, tx)   (* already present *)
              | None => (None, <[walletsBucket := <[addr := now]> bkt]> tx)
              end
          end) b
  end.

Definition RemoveWallet (ctx : Context) (addr : string) (b : Bolt)
  : option error * Bolt :=
  let addr := gostrings.TrimSpace addr in
  match validateSolanaAddress addr with
  | Some err => (Some (ErrInvalidAddress err), b)
  | None =>
      if done ctx then (Some ErrContext, b)
      else
        Update (λ tx,
          match tx !! walletsBucket with
          | None => (Some ErrBucketMissing, tx)
          | Some bkt => (None, <[walletsBucket := delete addr bkt]> tx)
          end) b
  end.

(** Go's [<=] on strings: bytewise lexicographic order. *)
Definition string_le (s1 s2 : string) : Prop := String.leb s1 s2 = true.

#[global] Instance string_le_dec : RelDecision string_le.
Proof. intros s1 s2; unfold string_le; apply _. Defined.

(** [sort.Strings]. *)
Definition sortStrings (l : list string) : list string :=
  merge_sort string_le l.

(** [ListWallets]: the keys of the bucket, collected by [ForEach] and
    then sorted. *)
Definition ListWallets (ctx : Context) (b : Bolt) : list string * option error :=
  if done ctx then ([], Some ErrContext)
  else
    match b !! walletsBucket with
    | None => ([], Some ErrBucketMissing)
    | Some bkt =>
        let addrs := (map_to_list bkt).*1 in
        (sortStrings addrs, None)
    end.

End store.

(* ================================================================== *)
(** ** package tracker: one subscription per wallet *)
(* ================================================================== *)

Module tracker.

(** *** Decoded JSON

    What [json.Unmarshal] stores in a value of type [any]: [nil], a
    [bool], a [float64], a [string], a [[]any] or a [map[string]any]. *)
Inductive any : Type :=
| JNull
| JBool (b : bool)
| JNumber (x : util.float64)
| JString (s : string)
| JArray (l : list any)
| JObject (m : gmap string any).

Section Classification.

(** [json.Unmarshal(raw, &m)] for [m] of type [map[string]any]: [None]
    when it returns an error, the decoded map otherwise (a [nil] map,
    which the text [null] leaves behind, reads as the empty map). *)
Variable Unmarshal : string → option (gmap string any).

(** [isNotif]: the three tests, in source order. *)
Definition isNotif (raw : string) : bool :=
  match Unmarshal raw with
  | None => false
  | Some m =>
      match m !! "result" with
      | Some _ => false   (* subscribe ACK or other call result *)
      | None =>
          let byMethod :=
            match m !! "method" with
            | Some (JString meth) =>
                if gostrings.Contains (gostrings.ToLower meth) "account"
                then match m !! "params" with Some _ => true | None => false end
                else false
            | _ => false
            end in
          if byMethod then true
          else
            match m !! "params" with
            | Some (JObject params) =>
                match params !! "result" with Some _ => true | None => false end
            | _ => false
            end
      end
  end.


End Classification.

(** *** The Subscriber and [Stop] *)

(** A channel of type [chan struct{}] on which nothing is ever sent:
    all that matters is whether it has been closed. *)
Inductive chan : Type := ChanOpen | ChanClosed.

(** [close(c)]; closing a closed channel panics ([None]). *)
Definition close (c : chan) : option chan :=
  match c with
  | ChanOpen => Some ChanClosed
  | ChanClosed => None
  end.

(** A receive on the channel is ready exactly when it is closed. *)
Definition ready (c : chan) : bool :=
  match c with ChanOpen => false | ChanClosed => true end.

Record Subscriber := mkSubscriber {
  wss : string;
  addr : string;
  commitment : string;
  open : bool;         (* true when the websocket is open *)
  shouldOpen : bool;   (* desired state (false after Stop) *)
  stopOnce : bool;     (* the [done] flag of the [sync.Once] *)
  stopCh : chan
}.

Definition NewSubscriber (wss commitment addr : string) : Subscriber :=
  {| wss := gostrings.TrimSpace wss;
     addr := gostrings.TrimSpace addr;
     commitment := gostrings.TrimSpace commitment;
     open := false;
     shouldOpen := true;
     stopOnce := false;
     stopCh := ChanOpen |}.

Definition IsOpen (s : Subscriber) : bool := open s.
Definition ShouldBeOpen (s : Subscriber) : bool := shouldOpen s.

Definition set_open (v : bool) (s : Subscriber) : Subscriber :=
  {| wss := wss s; addr := addr s; commitment := commitment s;
     open := v; shouldOpen := shouldOpen s;
     stopOnce := stopOnce s; stopCh := stopCh s |}.

(** What a call of [Stop] does to the shared state, in order. *)
Inductive stop_effect : Type :=
| StoreShouldOpen (v : bool)
| CloseStopCh.

(** [Stop], one call run to completion: the body runs unless the Once
    is already done.  The result is [None] when the call panics. *)
Definition Stop (s : Subscriber) : option (Subscriber * list stop_effect) :=
  if stopOnce s then Some (s, [])
  else
    match close (stopCh s) with
    | Some c =>
        Some ({| wss := wss s; addr := addr s; commitment := commitment s;
                 open := open s; shouldOpen := false;
                 stopOnce := true; stopCh := c |},
              [StoreShouldOpen false; CloseStopCh])
    | None => None
    end.

(** [n] calls of [Stop], one after the other. *)
Fixpoint StopTimes (n : nat) (s : Subscriber)
  : option (Subscriber * list stop_effect) :=
  match n with
  | O => Some (s, [])
  | S k =>
      match Stop s with
      | None => None
      | Some (s1, e1) =>
          match StopTimes k s1 with
          | None => None
          | Some (s2, e2) => Some (s2, e1 ++ e2)
          end
      end
  end.

(** *** [Stop] called from several goroutines

    [s.stopOnce.Do(f)] is [sync.Once]'s
    <<
      if o.done.Load() == 0 { o.doSlow(f) }
    >>
    with [doSlow] being
    <<
      o.m.Lock(); defer o.m.Unlock()
      if o.done.Load() == 0 { defer o.done.Store(1); f() }
    >>
    Each call is at one of the following places; a step of a call
    performs the one access to shared memory that comes next. *)
Inductive stop_pc : Type :=
| CallStart      (* about to load [done] on the fast path *)
| CallLock       (* about to lock the mutex *)
| CallCheck      (* holds the mutex; about to load [done] again *)
| CallStore      (* in [f]: about to store [shouldOpen] *)
| CallClose      (* in [f]: about to close [stopCh] *)
| CallDone       (* deferred: about to store [done] *)
| CallUnlock     (* deferred: about to unlock the mutex *)
| CallReturned
| CallPanicked.  (* [close] of a closed channel *)

Record Shared := mkShared {
  sh_sub : Subscriber;
  sh_mutex : option nat;         (* the call holding the Once's mutex *)
  sh_calls : list stop_pc;       (* one entry per call of [Stop] *)
  sh_effects : list stop_effect  (* what has been done so far *)
}.

Definition at_call (i : nat) (p : stop_pc) (σ : Shared) : Shared :=
  {| sh_sub := sh_sub σ; sh_mutex := sh_mutex σ;
     sh_calls := <[i := p]> (sh_calls σ); sh_effects := sh_effects σ |}.

Definition with_sub (s : Subscriber) (σ : Shared) : Shared :=
  {| sh_sub := s; sh_mutex := sh_mutex σ;
     sh_calls := sh_calls σ; sh_effects := sh_effects σ |}.

Definition with_mutex (m : option nat) (σ : Shared) : Shared :=
  {| sh_sub := sh_sub σ; sh_mutex := m;
     sh_calls := sh_calls σ; sh_effects := sh_effects σ |}.

Definition emit (e : stop_effect) (σ : Shared) : Shared :=
  {| sh_sub := sh_sub σ; sh_mutex := sh_mutex σ;
     sh_calls := sh_calls σ; sh_effects := sh_effects σ ++ [e] |}.

Definition set_shouldOpen (v : bool) (s : Subscriber) : Subscriber :=
  {| wss := wss s; addr := addr s; commitment := commitment s;
     open := open s; shouldOpen := v;
     stopOnce := stopOnce s; stopCh := stopCh s |}.

Definition set_stopCh (c : chan) (s : Subscriber) : Subscriber :=
  {| wss := wss s; addr := addr s; commitment := commitment s;
     open := open s; shouldOpen := shouldOpen s;
     stopOnce := stopOnce s; stopCh := c |}.

Definition set_stopOnce (v : bool) (s : Subscriber) : Subscriber :=
  {| wss := wss s; addr := addr s; commitment := commitment s;
     open := open s; shouldOpen := shouldOpen s;
     stopOnce := v; stopCh := stopCh s |}.

(** One step of call [i].  A call that waits for the mutex, or has
    returned, leaves the state as it is. *)
Definition stop_step (i : nat) (σ : Shared) : Shared :=
  match sh_calls σ !! i with
  | None => σ
  | Some CallStart =>
      if stopOnce (sh_sub σ) then at_call i CallReturned σ
      else at_call i CallLock σ
  | Some CallLock =>
      match sh_mutex σ with
      | None => at_call i CallCheck (with_mutex (Some i) σ)
      | Some _ => σ
      end
  | Some CallCheck =>
      if stopOnce (sh_sub σ) then at_call i CallUnlock σ
      else at_call i CallStore σ
  | Some CallStore =>
      at_call i CallClose
        (emit (StoreShouldOpen false)
           (with_sub (set_shouldOpen false (sh_sub σ)) σ))
  | Some CallClose =>
      match close (stopCh (sh_sub σ)) with
      | Some c =>
          at_call i CallDone
            (emit CloseStopCh (with_sub (set_stopCh c (sh_sub σ)) σ))
      | None => at_call i CallPanicked σ
      end
  | Some CallDone =>
      at_call i CallUnlock (with_sub (set_stopOnce true (sh_sub σ)) σ)
  | Some CallUnlock =>
      at_call i CallReturned (with_mutex None σ)
  | Some CallReturned => σ
  | Some CallPanicked => σ
  end.

(** A schedule names, step by step, the call that moves next. *)
Definition run_schedule (sched : list nat) (σ : Shared) : Shared :=
  fold_left (λ σ i, stop_step i σ) sched σ.

(** [n] calls of [Stop] on [s], none of which has started. *)
Definition concurrent_stops (n : nat) (s : Subscriber) : Shared :=
  {| sh_sub := s; sh_mutex := None;
     sh_calls := replicate n CallStart; sh_effects := [] |}.

Definition count_closes (es : list stop_effect) : nat :=
  List.length (List.filter (λ e, match e with CloseStopCh => true | _ => false end) es).

(** *** The invariant of the concurrent calls *)

Definition crit (p : stop_pc) : bool :=
  match p with
  | CallCheck | CallStore | CallClose | CallDone | CallUnlock => true
  | _ => false
  end.

Definition both : list stop_effect := [StoreShouldOpen false; CloseStopCh].

Definition pristine (σ : Shared) : Prop :=
  stopOnce (sh_sub σ) = false ∧ stopCh (sh_sub σ) = ChanOpen ∧
  sh_effects σ = [].

Definition finished (σ : Shared) : Prop :=
  stopOnce (sh_sub σ) = true ∧ stopCh (sh_sub σ) = ChanClosed ∧
  shouldOpen (sh_sub σ) = false ∧ sh_effects σ = both.

(** What the call holding the mutex has done so far. *)
Definition holder_ok (σ : Shared) : Prop :=
  match sh_mutex σ with
  | None => pristine σ ∨ finished σ
  | Some i =>
      match sh_calls σ !! i with
      | Some CallCheck => pristine σ ∨ finished σ
      | Some CallStore => pristine σ
      | Some CallClose =>
          stopOnce (sh_sub σ) = false ∧ stopCh (sh_sub σ) = ChanOpen ∧
          shouldOpen (sh_sub σ) = false ∧
          sh_effects σ = [StoreShouldOpen false]
      | Some CallDone =>
          stopOnce (sh_sub σ) = false ∧ stopCh (sh_sub σ) = ChanClosed ∧
          shouldOpen (sh_sub σ) = false ∧ sh_effects σ = both
      | Some CallUnlock => finished σ
      | _ => False
      end
  end.

Record stop_inv (σ : Shared) : Prop := mk_stop_inv {
  inv_calls : ∀ i p, sh_calls σ !! i = Some p →
                p ≠ CallPanicked ∧ (crit p = true ↔ sh_mutex σ = Some i) ∧
                (p = CallReturned → stopOnce (sh_sub σ) = true);
  inv_holder : holder_ok σ
}.

#[global] Instance stop_pc_eq_dec : EqDecision stop_pc.
Proof. solve_decision. Defined.

(** How many steps a call is away from having returned, at most. *)
Definition call_rank (p : stop_pc) : nat :=
  match p with
  | CallStart => 7 | CallLock => 6 | CallCheck => 5 | CallStore => 4
  | CallClose => 3 | CallDone => 2 | CallUnlock => 1
  | CallReturned => 0 | CallPanicked => 0
  end.

Definition total_rank (σ : Shared) : nat :=
  sum_list (call_rank <$> sh_calls σ).

(** *** [Run]

    The goroutine that executes [Run] is at one of the following places.
    Each step takes it to the next one; what the transport, the timer and
    the random generator answer is the step's input. *)
Inductive point : Type :=
| AtTop                          (* the select at the head of the loop *)
| AtDial                         (* about to call [DialContext] *)
| AtSubscribe                    (* connected; about to [WriteJSON] *)
| AtRead                         (* read loop; about to [ReadMessage] *)
| AtWait (wait : util.Duration)  (* the select on [time.After(wait)] *)
| Returned.

Inductive reply : Type :=
| Proceed                (* [AtTop]: whichever case is ready *)
| DialOk | DialErr       (* [AtDial] *)
| WriteOk | WriteErr     (* [AtSubscribe] *)
| ReadMsg (raw : string) (* [AtRead]: a message arrives *)
| ReadErr                (* [AtRead]: error, remote close or deadline *)
| FiresCtx | FiresStop | FiresTimer.   (* [AtWait]: the case taken *)

Inductive action : Type :=
| ActDial
| ActSubscribe
| ActNotify (text : string)
| ActCloseConn.

Record World := mkWorld {
  sub : Subscriber;
  ctxDone : bool;            (* [ctx.Done()] is closed *)
  bo : util.Backoff;
  pc : point;
  ActivityNotify : bool      (* the package-level callback is set *)
}.

Definition shortAddr (s : Subscriber) : string :=
  if (String.length (addr s) <? 4)%nat then addr s
  else (String.substring 0 4 (addr s) ++ "...")%string.

Definition quote : string := String (ascii_of_N 34) EmptyString.

(** The one-line HTML message of an activity. *)
Definition link (s : Subscriber) : string :=
  ("activity detected: <a href=" ++ quote ++ "https://solscan.io/account/"
   ++ addr s ++ quote ++ ">" ++ shortAddr s ++ "</a>")%string.

Definition stop_requested (w : World) : bool :=
  ctxDone w || ready (stopCh (sub w)).

Definition goto (p : point) (w : World) : World :=
  {| sub := sub w; ctxDone := ctxDone w; bo := bo w; pc := p;
     ActivityNotify := ActivityNotify w |}.

Definition store_open (v : bool) (w : World) : World :=
  {| sub := set_open v (sub w); ctxDone := ctxDone w; bo := bo w; pc := pc w;
     ActivityNotify := ActivityNotify w |}.

Definition with_bo (b : util.Backoff) (w : World) : World :=
  {| sub := sub w; ctxDone := ctxDone w; bo := b; pc := pc w;
     ActivityNotify := ActivityNotify w |}.

(** [wait := bo.Next()] followed by the select on the timer; [r] is the
    draw of the random generator. *)
Definition backoff_wait (r : util.float64) (w : World) : World :=
  let '(wait, b) := util.Next (bo w) r in
  goto (AtWait wait) (with_bo b w).

Section Run.

Variable Unmarshal : string → option (gmap string any).

(** One step of [Run]; [None] when the reply is not one the place can
    get. *)
Definition step (w : World) (rp : reply) (r : util.float64)
  : option (World * list action) :=
  match pc w, rp with
  | AtTop, Proceed =>
      if stop_requested w then Some (goto Returned w, [])
      else Some (goto AtDial w, [])
  | AtDial, DialErr =>
      Some (backoff_wait r w, [ActDial])
  | AtDial, DialOk =>
      (* s.open.Store(true); bo.Reset() *)
      Some (goto AtSubscribe (with_bo (util.Reset (bo w)) (store_open true w)),
            [ActDial])
  | AtSubscribe, WriteErr =>
      (* s.open.Store(false); conn.Close(); wait := bo.Next() *)
      Some (backoff_wait r (store_open false w), [ActSubscribe; ActCloseConn])
  | AtSubscribe, WriteOk =>
      Some (goto AtRead w, [ActSubscribe])
  | AtRead, ReadMsg raw =>
      if isNotif Unmarshal raw
      then Some (w, if ActivityNotify w then [ActNotify (link (sub w))] else [])
      else Some (w, [])
  | AtRead, ReadErr =>
      (* close(pingStop); s.open.Store(false); conn.Close();
         readErr != nil: wait := bo.Next() *)
      Some (backoff_wait r (store_open false w), [ActCloseConn])
  | AtWait _, FiresCtx =>
      if ctxDone w then Some (goto Returned w, []) else None
  | AtWait _, FiresStop =>
      if ready (stopCh (sub w)) then Some (goto Returned w, []) else None
  | AtWait _, FiresTimer =>
      Some (goto AtTop w, [])
  | _, _ => None
  end.

(** What happens, in order: steps of [Run], calls of [Stop] from other
    goroutines, and the cancellation of the context. *)
Inductive event : Type :=
| EvRun (rp : reply) (r : util.float64)
| EvStop
| EvCancel.

Inductive item : Type :=
| Did (a : action)
| StopCalled
| Cancelled.

Definition occur (ev : event) (w : World) : option (World * list item) :=
  match ev with
  | EvRun rp r =>
      match step w rp r with
      | Some (w', acts) => Some (w', List.map Did acts)
      | None => None
      end
  | EvStop =>
      match Stop (sub w) with
      | Some (s', _) =>
          Some ({| sub := s'; ctxDone := ctxDone w; bo := bo w; pc := pc w;
                   ActivityNotify := ActivityNotify w |}, [StopCalled])
      | None => None
      end
  | EvCancel =>
      Some ({| sub := sub w; ctxDone := true; bo := bo w; pc := pc w;
               ActivityNotify := ActivityNotify w |}, [Cancelled])
  end.

Fixpoint exec (w : World) (evs : list event) : option (World * list item) :=
  match evs with
  | [] => Some (w, [])
  | ev :: evs' =>
      match occur ev w with
      | None => None
      | Some (w1, t1) =>
          match exec w1 evs' with
          | None => None
          | Some (w2, t2) => Some (w2, t1 ++ t2)
          end
      end
  end.

(** [Run] is entered: a fresh Backoff, at the head of the loop. *)
Definition start (s : Subscriber) (hook : bool) : World :=
  {| sub := s; ctxDone := false;
     bo := util.NewBackoff (1 * util.Second) (30 * util.Second) 2.0%Q 0.2%Q;
     pc := AtTop; ActivityNotify := hook |}.

Definition is_dial (it : item) : bool :=
  match it with Did ActDial => true | _ => false end.

Definition dials (tr : list item) : nat :=
  List.length (List.filter is_dial tr).

(** The dials that a trace shows after its first stop request. *)
Fixpoint dials_after_stop (tr : list item) : nat :=
  match tr with
  | [] => O
  | StopCalled :: tr' => dials tr'
  | Cancelled :: tr' => dials tr'
  | Did _ :: tr' => dials_after_stop tr'
  end.

(** The steps of [Run] other than the arrival of a message. *)
Definition is_progress (ev : event) : bool :=
  match ev with
  | EvRun (ReadMsg _) _ => false
  | EvRun _ _ => true
  | _ => false
  end.

Definition progress_steps (evs : list event) : nat :=
  List.length (List.filter is_progress evs).

(** How many such steps [Run] is away from returning, at most, once a
    stop has been requested. *)
Definition steps_left (p : point) : nat :=
  match p with
  | Returned => 0
  | AtTop => 1
  | AtWait _ => 2
  | AtRead => 3
  | AtSubscribe => 4
  | AtDial => 5
  end.

End Run.

(** What holds of the Subscriber wherever [Run] stands. *)
Record run_inv (w : World) : Prop := mk_run_inv {
  ri_once : stopOnce (sub w) = true ↔ stopCh (sub w) = ChanClosed;
  ri_open : pc w ≠ AtSubscribe → pc w ≠ AtRead → open (sub w) = false
}.

(** The dials [Run] may still make once a stop has been requested: the
    one it has committed to, if it stands between the check and the
    call. *)
Definition dial_budget (p : point) : nat :=
  match p with AtDial => 1 | _ => 0 end.

(** [k] failed dials in a row, one per draw: check, dial, wait for the
    timer. *)
Definition dial_failures (rs : list util.float64) : list event :=
  List.flat_map
    (λ r, [EvRun Proceed 0%Q; EvRun DialErr r; EvRun FiresTimer 0%Q]) rs.

(** A decoder that rejects every text: enough for runs in which no
    message is read. *)
Definition rejectAll : string → option (gmap string any) := λ _, None.

Definition sampleSubscriber : Subscriber :=
  NewSubscriber "wss://mainnet.helius-rpc.com" "processed"
    "11111111111111111111111111111111".

End tracker.

(* ================================================================== *)
(** ** What a run of [Run] shows to the outside *)
(* ================================================================== *)

Module tracker_obs.
Import tracker.

(** The notifications a trace holds, in order. *)
Fixpoint notified (tr : list item) : list string :=
  match tr with
  | [] => []
  | Did (ActNotify text) :: tr' => text :: notified tr'
  | _ :: tr' => notified tr'
  end.

(** How often a trace closes a connection. *)
Fixpoint conn_closes (tr : list item) : nat :=
  match tr with
  | [] => O
  | Did ActCloseConn :: tr' => S (conn_closes tr')
  | _ :: tr' => conn_closes tr'
  end.

(** How often a dial succeeds in a list of events. *)
Fixpoint dial_oks (evs : list event) : nat :=
  match evs with
  | [] => O
  | EvRun DialOk _ :: evs' => S (dial_oks evs')
  | _ :: evs' => dial_oks evs'
  end.

Section Classified.
Variable Unmarshal : string → option (gmap string any).

(** The messages of a list of events that [isNotif] accepts. *)
Fixpoint accepted (evs : list event) : nat :=
  match evs with
  | [] => O
  | EvRun (ReadMsg raw) _ :: evs' =>
      if isNotif Unmarshal raw then S (accepted evs') else accepted evs'
  | _ :: evs' => accepted evs'
  end.
End Classified.

Definition is_stop (ev : event) : bool :=
  match ev with EvStop => true | _ => false end.

(** Every draw handed to [Run] is one [rand.Float64()] can return. *)
Definition draws_ok (evs : list event) : Prop :=
  Forall (λ ev, match ev with EvRun _ r => util.is_draw r | _ => True end) evs.

(** [Run] holds a connection. *)
Definition connected (p : point) : bool :=
  match p with AtSubscribe | AtRead => true | _ => false end.

(** What [Run] keeps true of its Backoff and of the flag [open]. *)
Record run_keeps (w : World) : Prop := mk_run_keeps {
  rk_min : util.min (bo w) = 1 * util.Second;
  rk_max : util.max (bo w) = 30 * util.Second;
  rk_factor : util.factor (bo w) = 2.0%Q;
  rk_jitter : util.jitter (bo w) = 0.2%Q;
  rk_open : open (sub w) = connected (pc w);
  rk_attempt : connected (pc w) = true → util.attempt (bo w) = 0;
  rk_wait : ∀ d, pc w = AtWait d → 1 * util.Second <= d
}.

(** The flags [Stop] sets, as they stand together. *)
Definition stop_flags (s : Subscriber) : Prop :=
  ready (stopCh s) = stopOnce s ∧ shouldOpen s = negb (stopOnce s).

Definition one (b : bool) : nat := if b then 1 else 0.

(** A decoder for which every message is an account notification. *)
Definition acceptAll : string → option (gmap string any) :=
  λ _, Some (<["params" := JObject (<["result" := JNull]> ∅)]> ∅).

Definition waits_short (w : World) : Prop :=
  ∀ d, pc w = AtWait d → d <= 36 * util.Second.

End tracker_obs.

(* ================================================================== *)
(** ** The wallet store in use *)
(* ================================================================== *)

Module store_obs.
Import store.

(** The calls that change a store, and a client's sequence of them. *)
Inductive call : Type :=
| Add (ctx : Context) (now addr : string)
| Remove (ctx : Context) (addr : string).

Definition perform (b : Bolt) (c : call) : Bolt :=
  match c with
  | Add ctx now addr => (AddWallet ctx now addr b).2
  | Remove ctx addr => (RemoveWallet ctx addr b).2
  end.

Definition perform_all (cs : list call) (b : Bolt) : Bolt :=
  fold_left perform cs b.

(** A valid address: base58 text of a 32-byte key. *)
Definition is_address (a : string) : Prop :=
  ∃ decoded, b58Decode a = Some decoded ∧ List.length decoded = 32%nat.

(** The bucket is there and holds addresses only. *)
Definition keys_valid (b : Bolt) : Prop :=
  ∃ bkt, b !! walletsBucket = Some bkt ∧
         ∀ a, is_Some (bkt !! a) → is_address a.

(** Texts made of the six ASCII blanks: tab, line feed, vertical tab,
    form feed, carriage return and space. *)
Definition asciiSpace : string := gostrings.bytes [9; 10; 11; 12; 13; 32]%N.

Fixpoint blanks (s : string) : bool :=
  match s with
  | EmptyString => true
  | String c s' => gostrings.IndexByte c asciiSpace && blanks s'
  end.

(** The address of the all-zero key. *)
Definition zeroKey : string := "11111111111111111111111111111111".

Definition live : Context := {| done := false |}.
Definition cancelled : Context := {| done := true |}.

End store_obs.

(* ================================================================== *)
(** ** The Telegram handler (package [telegram]) *)
(* ================================================================== *)

Module telegram.

(** [strings.HasPrefix] and [strings.TrimPrefix]. *)
Definition HasPrefix (s prefix : string) : bool := gostrings.isPrefix prefix s.

Definition TrimPrefix (s prefix : string) : string :=
  match gostrings.stripPrefix prefix s with
  | Some rest => rest
  | None => s
  end.

Definition dquote : ascii := ascii_of_N 34.

(** [escapeHTML].  The replacer has four one-byte patterns, so it works
    byte by byte: a byte with a replacement is written as its
    replacement, any other byte as it is. *)
Definition escapeByte (c : ascii) : string :=
  if Ascii.eqb c "&" then "&amp;"
  else if Ascii.eqb c "<" then "&lt;"
  else if Ascii.eqb c ">" then "&gt;"
  else if Ascii.eqb c dquote then "&quot;"
  else String c EmptyString.

Fixpoint escapeHTML (s : string) : string :=
  match s with
  | EmptyString => EmptyString
  | String c s' => (escapeByte c ++ escapeHTML s')%string
  end.

(** What a call of the handler does to the world around it, in order:
    calls of the store ([h.st]), of the tracker manager ([h.tm]) and of
    the health aggregator ([h.hlth]), messages sent through the bot, and
    the goroutine that calls [killFn]. *)
Inductive effect : Type :=
| AddWallet (addr : string)
| RemoveWallet (addr : string)
| Track (addr : string)
| Untrack (addr : string)
| List
| Snapshot
| SendMessage (chatID : Z) (html : string)
| GoKill.

(** [models.Message], as far as the handler reads it. *)
Record Message := { Chat : option Z; Text : string }.

Section Handler.

(** [strings.ToLower], the health report and its formatted message
    ([fmt.Sprintf] on the report's counters and time). *)
Variable ToLower : string → string.
Variable Report : Type.
Variable healthMsg : Report → string.

(** What the collaborators answer: the error text of a failed call
    ([None] is [nil]), the manager's list and the health report. *)
Record Answers := {
  st_AddWallet : string → option string;
  st_RemoveWallet : string → option string;
  tm_Track : string → option string;
  tm_List : list string;
  hlth_Snapshot : Report
}.

Definition sendHTML (chatID : Z) (html : string) : list effect :=
  [SendMessage chatID html].

Definition helpText : string :=
  gostrings.TrimSpace "
<b>solwatch</b>
/help - show this help
/track &lt;address&gt; - start tracking a wallet
/untrack &lt;address&gt; - stop tracking a wallet
/tracked - list tracked wallets
/health - show counts and dropped subscriptions
/kill - shutdown the service
".

Definition replyHelp (chatID : Z) : list effect := sendHTML chatID helpText.

Definition newline : string := String (ascii_of_N 10) EmptyString.

(** The loop over the list in the [/tracked] case. *)
Fixpoint writeList (l : list string) : string :=
  match l with
  | [] => EmptyString
  | a :: l' => (escapeHTML a ++ newline ++ writeList l')%string
  end.

(** [handleCommand], for the text and the chat of the message. *)
Definition handleCommand (env : Answers) (chatID : Z) (text : string)
  : list effect :=
  let raw := gostrings.TrimSpace text in
  let lower := ToLower raw in
  if HasPrefix lower "/help" then replyHelp chatID
  else if HasPrefix lower "/track" then
    let arg := gostrings.TrimSpace (TrimPrefix raw "/track") in
    if String.eqb arg "" then
      sendHTML chatID "usage: <code>/track &lt;address&gt;</code>"
    else
      match st_AddWallet env arg with
      | Some err =>
          AddWallet arg
          :: sendHTML chatID ("track failed: <code>" ++ err ++ "</code>")
      | None =>
          match tm_Track env arg with
          | Some err =>
              AddWallet arg :: Track arg
              :: sendHTML chatID ("subscriber failed: <code>" ++ err ++ "</code>")
          | None =>
              AddWallet arg :: Track arg
              :: sendHTML chatID ("tracking <b>" ++ escapeHTML arg ++ "</b>")
          end
      end
  else if HasPrefix lower "/untrack" then
    let arg := gostrings.TrimSpace (TrimPrefix raw "/untrack") in
    if String.eqb arg "" then
      sendHTML chatID "usage: <code>/untrack &lt;address&gt;</code>"
    else
      match st_RemoveWallet env arg with
      | Some err =>
          Untrack arg :: RemoveWallet arg
          :: sendHTML chatID ("untrack failed: <code>" ++ err ++ "</code>")
      | None =>
          Untrack arg :: RemoveWallet arg
          :: sendHTML chatID ("untracked <b>" ++ escapeHTML arg ++ "</b>")
      end
  else if HasPrefix lower "/tracked" then
    match tm_List env with
    | [] => List :: sendHTML chatID "none"
    | l => List :: sendHTML chatID (writeList l)
    end
  else if HasPrefix lower "/health" then
    Snapshot :: sendHTML chatID (healthMsg (hlth_Snapshot env))
  else if HasPrefix lower "/kill" then
    sendHTML chatID "shutting down…" ++ [GoKill]
  else sendHTML chatID "unknown command. try <code>/help</code>".

(** The handler that [Run] registers: an update without a message, or
    with a message without a chat or from another chat than the
    administrator's, is dropped. *)
Definition onUpdate (adminID : Z) (env : Answers) (u : option Message)
  : list effect :=
  match u with
  | None => []
  | Some m =>
      match Chat m with
      | None => []
      | Some chatID =>
          if negb (chatID =? adminID) then []
          else handleCommand env chatID (Text m)
      end
  end.

(** The messages among the effects. *)
Fixpoint sent (es : list effect) : list (Z * string) :=
  match es with
  | [] => []
  | SendMessage c h :: es' => (c, h) :: sent es'
  | _ :: es' => sent es'
  end.

End Handler.

(** The bytes that open or close a tag or an attribute value. *)
Definition markup (c : ascii) : bool :=
  Ascii.eqb c "<" || Ascii.eqb c ">" || Ascii.eqb c dquote.

Fixpoint has_markup (s : string) : bool :=
  match s with
  | EmptyString => false
  | String c s' => markup c || has_markup s'
  end.

End telegram.

(* ================================================================== *)
(** ** Facts about the Backoff *)
(* ================================================================== *)

Module backoff_facts.
Import util.

Lemma Qltb_lt (x y : Q) : Qltb x y = true ↔ (x < y)%Q.
Proof.
  unfold Qltb. rewrite negb_true_iff.
  split.
  - intros H. apply Qnot_le_lt. intros Hle.
    apply Qle_bool_iff in Hle. congruence.
  - intros H. destruct (Qle_bool y x) eqn:E; [|reflexivity].
    apply Qle_bool_iff in E. exfalso. apply (Qlt_not_le _ _ H E).
Qed.

Lemma Qltb_ge (x y : Q) : Qltb x y = false ↔ (y <= x)%Q.
Proof.
  unfold Qltb. rewrite negb_false_iff. apply Qle_bool_iff.
Qed.

(** [if x < y then a else b], decided. *)
Lemma Qltb_case (x y : Q) :
  (Qltb x y = true ∧ (x < y)%Q) ∨ (Qltb x y = false ∧ (y <= x)%Q).
Proof.
  destruct (Qltb x y) eqn:E.
  - left. split; [reflexivity|]. now apply Qltb_lt.
  - right. split; [reflexivity|]. now apply Qltb_ge.
Qed.

Lemma trunc_floor (x : Q) : (0 <= x)%Q → trunc x = Qfloor x.
Proof.
  destruct x as [n d]. unfold Qle, trunc, Qfloor. simpl. intros H.
  apply Z.quot_div_nonneg; lia.
Qed.

Lemma trunc_opp (x : Q) : trunc (- x)%Q = - trunc x.
Proof.
  destruct x as [n d]. unfold trunc. simpl. apply Z.quot_opp_l. lia.
Qed.

Lemma trunc_comp (x y : Q) : (x == y)%Q → trunc x = trunc y.
Proof.
  intros E. destruct (Qlt_le_dec x 0) as [Hx|Hx].
  - assert (Hy : (0 <= - y)%Q) by lra.
    assert (Hx' : (0 <= - x)%Q) by lra.
    assert (E' : (- x == - y)%Q) by lra.
    apply Z.opp_inj. rewrite <- !trunc_opp.
    rewrite !trunc_floor by assumption. now apply Qfloor_comp.
  - assert (Hy : (0 <= y)%Q) by lra.
    rewrite !trunc_floor by assumption. now apply Qfloor_comp.
Qed.

#[global] Instance trunc_proper : Proper (Qeq ==> eq) trunc.
Proof. intros x y E. now apply trunc_comp. Qed.

Lemma trunc_inject (z : Z) : trunc (to_float z) = z.
Proof. unfold trunc, to_float. simpl. apply Z.quot_1_r. Qed.

Lemma trunc_ge (z : Z) (x : Q) : 0 <= z → (to_float z <= x)%Q → z <= trunc x.
Proof.
  intros Hz H. unfold to_float in H.
  assert (Hx : (0 <= x)%Q).
  { apply Qle_trans with (inject_Z z); [|exact H].
    change 0%Q with (inject_Z 0). now rewrite <- Zle_Qle. }
  rewrite trunc_floor by exact Hx.
  rewrite <- (Qfloor_Z z). now apply Qfloor_resp_le.
Qed.

Lemma trunc_le (x : Q) : (0 <= x)%Q → (to_float (trunc x) <= x)%Q.
Proof. intros Hx. rewrite trunc_floor by exact Hx. apply Qfloor_le. Qed.

Lemma trunc_mono (x y : Q) : (0 <= x)%Q → (x <= y)%Q → trunc x <= trunc y.
Proof.
  intros Hx Hxy. rewrite !trunc_floor by lra. now apply Qfloor_resp_le.
Qed.

Lemma pow_loop_spec (n : nat) (base acc : Q) :
  (pow_loop n base acc == acc * base ^ Z.of_nat n)%Q.
Proof.
  revert acc. induction n as [|n IH]; intros acc.
  - simpl. ring.
  - cbn [pow_loop]. rewrite IH.
    rewrite Nat2Z.inj_succ, <- Z.add_1_r.
    destruct n as [|n'].
    + simpl. ring.
    + rewrite Qpower_plus' by lia. simpl (base ^ 1)%Q. ring.
Qed.

Lemma pow_spec (base : Q) (n : Z) :
  0 <= n → (pow base (to_float n) == base ^ n)%Q.
Proof.
  intros Hn. unfold pow. rewrite trunc_inject, pow_loop_spec.
  rewrite Z2Nat.id by exact Hn. ring.
Qed.

Lemma pow_neg (base : Q) (n : Z) : n <= 0 → pow base (to_float n) = 1%Q.
Proof.
  intros Hn. unfold pow. rewrite trunc_inject.
  replace (Z.to_nat n) with O by lia. reflexivity.
Qed.


Lemma NewBackoff_wf (min0 max0 : Duration) (factor0 jitter0 : float64) :
  wf (NewBackoff min0 max0 factor0 jitter0).
Proof.
  unfold NewBackoff. split; cbn [min max factor jitter].
  - destruct (Z.leb_spec min0 0); unfold Second; lia.
  - set (m := if min0 <=? 0 then Second else min0).
    destruct (Z.ltb_spec max0 m); lia.
  - destruct (Qltb_case factor0 1.1%Q) as [[-> _]|[-> H]]; [lra|exact H].
  - destruct (Qltb_case jitter0 0%Q) as [[-> _]|[-> H0]].
    + destruct (Qltb_case 1%Q 0%Q) as [[-> H1]|[-> _]]; lra.
    + destruct (Qltb_case 1%Q jitter0) as [[-> H1]|[-> H1]]; split; lra.
Qed.

Lemma wf_bump (b : Backoff) : wf b → wf (bump b).
Proof. intros [? ? ? ?]. split; assumption. Qed.

Lemma wf_Reset (b : Backoff) : wf b → wf (Reset b).
Proof. intros [? ? ? ?]. split; assumption. Qed.

Lemma Next_snd (b : Backoff) (r : Q) : (Next b r).2 = bump b.
Proof. reflexivity. Qed.

Lemma to_float_le (a b : Z) : a <= b → (to_float a <= to_float b)%Q.
Proof. unfold to_float. now rewrite <- Zle_Qle. Qed.

Lemma to_float_pos (a : Z) : 0 < a → (0 < to_float a)%Q.
Proof. unfold to_float. change 0%Q with (inject_Z 0). now rewrite <- Zlt_Qlt. Qed.

Lemma pow_ge_1 (base : Q) (n : Z) : (1 <= base)%Q → (1 <= pow base (to_float n))%Q.
Proof.
  intros Hb. destruct (Z.le_gt_cases n 0) as [Hn|Hn].
  - rewrite pow_neg by exact Hn. lra.
  - rewrite pow_spec by lia. apply Qpower_1_le; [exact Hb|lia].
Qed.

(** The capped product, as [Qmin]. *)
Lemma raw_Qmin (b : Backoff) :
  (raw b == Qmin (to_float (min b) * pow (factor b) (to_float (attempt b)))
                 (to_float (max b)))%Q.
Proof.
  unfold raw. cbv zeta.
  destruct (Qltb_case (to_float (max b))
              (to_float (min b) * pow (factor b) (to_float (attempt b)))%Q)
    as [[-> H]|[-> H]].
  - symmetry. apply Q.min_r. lra.
  - symmetry. apply Q.min_l. exact H.
Qed.

Lemma raw_bounds (b : Backoff) :
  wf b → (to_float (min b) <= raw b)%Q ∧ (raw b <= to_float (max b))%Q.
Proof.
  intros [Hm HM Hf Hj].
  pose proof (to_float_pos _ Hm) as Hm'.
  pose proof (to_float_le _ _ HM) as HM'.
  assert (Hp : (1 <= pow (factor b) (to_float (attempt b)))%Q)
    by (apply pow_ge_1; lra).
  assert (Hprod : (to_float (min b) <=
                   to_float (min b) * pow (factor b) (to_float (attempt b)))%Q)
    by nra.
  unfold raw. cbv zeta.
  destruct (Qltb_case (to_float (max b))
              (to_float (min b) * pow (factor b) (to_float (attempt b)))%Q)
    as [[-> H]|[-> H]]; split; lra.
Qed.

Lemma jitter_of_range (b : Backoff) (r : Q) :
  (0 <= jitter b)%Q → (0 <= r)%Q → (r < 1)%Q →
  (- jitter b <= jitter_of b r)%Q ∧ (jitter_of b r <= jitter b)%Q.
Proof. unfold jitter_of. intros Hj H0 H1. split; nra. Qed.

(** [Next]'s delay as a closed formula. *)
Lemma Next_fst (b : Backoff) (r : Q) :
  (0 <= jitter b)%Q →
  (Next b r).1 =
    trunc (Qmax (to_float (min b)) (raw b * (1 + jitter_of b r)))%Q.
Proof.
  intros Hj. unfold Next. cbv zeta. cbn [fst bump jitter min].
  apply trunc_comp.
  change (jitter_of (bump b) r) with (jitter_of b r).
  set (y := if Qltb 0 (jitter b) then (raw b * (1 + jitter_of b r))%Q else raw b).
  assert (E : (y == raw b * (1 + jitter_of b r))%Q).
  { unfold y. destruct (Qltb_case 0%Q (jitter b)) as [[-> _]|[-> H]]; [reflexivity|].
    unfold jitter_of. assert (jitter b == 0)%Q as -> by lra. ring. }
  destruct (Qltb_case y (to_float (min b))) as [[-> H]|[-> H]].
  - symmetry. rewrite <- E. apply Q.max_l. lra.
  - rewrite E. symmetry. apply Q.max_r. rewrite <- E. exact H.
Qed.

Lemma Next_bounds (b : Backoff) (r : Q) :
  wf b → (0 <= r)%Q → (r < 1)%Q →
  min b <= (Next b r).1 ∧
  (to_float (Next b r).1 <= to_float (max b) * (1 + jitter b))%Q.
Proof.
  intros Hwf H0 H1. pose proof Hwf as [Hm HM Hf [Hj0 Hj1]].
  pose proof (to_float_pos _ Hm) as Hm'.
  destruct (raw_bounds b Hwf) as [Hr1 Hr2].
  destruct (jitter_of_range b r Hj0 H0 H1) as [Hu1 Hu2].
  rewrite Next_fst by exact Hj0.
  set (x := Qmax (to_float (min b)) (raw b * (1 + jitter_of b r))%Q).
  assert (Hx1 : (to_float (min b) <= x)%Q) by apply Q.le_max_l.
  assert (Hx2 : (x <= to_float (max b) * (1 + jitter b))%Q).
  { unfold x. apply Q.max_lub; nra. }
  split.
  - apply trunc_ge; [lia|exact Hx1].
  - apply Qle_trans with x; [apply trunc_le; lra|exact Hx2].
Qed.


Lemma wrap_int_id (z : Z) : - 2 ^ 63 <= z < 2 ^ 63 → wrap_int z = z.
Proof. intros H. unfold wrap_int. rewrite Z.mod_small; lia. Qed.

Lemma attempt_bump (b : Backoff) :
  0 <= attempt b < max_int → attempt (bump b) = attempt b + 1.
Proof.
  unfold max_int. intros H. cbn [bump attempt]. apply wrap_int_id. lia.
Qed.

Lemma run_ops_wf (ops : list op) (b : Backoff) : wf b → wf (run_ops ops b).
Proof.
  revert b. induction ops as [|o ops IH]; intros b Hb; [exact Hb|].
  change (run_ops (o :: ops) b) with (run_ops ops (apply_op b o)).
  apply IH. destruct o; cbn [apply_op].
  - rewrite Next_snd. now apply wf_bump.
  - now apply wf_Reset.
Qed.

Lemma run_ops_fields (ops : list op) (b : Backoff) :
  min (run_ops ops b) = min b ∧ max (run_ops ops b) = max b ∧
  factor (run_ops ops b) = factor b ∧ jitter (run_ops ops b) = jitter b.
Proof.
  revert b. induction ops as [|o ops IH]; intros b; [now repeat split|].
  change (run_ops (o :: ops) b) with (run_ops ops (apply_op b o)).
  destruct (IH (apply_op b o)) as (-> & -> & -> & ->).
  destruct o; now repeat split.
Qed.

Lemma raw_power (b : Backoff) :
  0 <= attempt b →
  (raw b == Qmin (to_float (min b) * factor b ^ attempt b) (to_float (max b)))%Q.
Proof.
  intros Hn. rewrite raw_Qmin. rewrite pow_spec by exact Hn. reflexivity.
Qed.

Lemma raw_step (b : Backoff) :
  wf b → 0 <= attempt b < max_int → (raw b <= raw (bump b))%Q.
Proof.
  intros Hwf Hn. pose proof Hwf as [Hm HM Hf Hj].
  pose proof (to_float_pos _ Hm) as Hm'.
  rewrite (raw_power b) by lia.
  rewrite (raw_power (bump b)) by (rewrite attempt_bump; lia).
  rewrite attempt_bump by exact Hn. cbn [bump min max factor].
  assert (Hp : (factor b ^ attempt b <= factor b ^ (attempt b + 1))%Q)
    by (apply Qpower_le_compat_l; [lia|lra]).
  apply Q.min_le_compat_r. nra.
Qed.

Lemma delay_step (b : Backoff) (r : Q) :
  wf b → 0 <= attempt b < max_int → (0 <= r)%Q →
  delay b r <= delay (bump b) r.
Proof.
  intros Hwf Hn Hr. pose proof Hwf as [Hm HM Hf [Hj0 Hj1]].
  pose proof (to_float_pos _ Hm) as Hm'.
  unfold delay. rewrite !Next_fst by exact Hj0.
  change (jitter_of (bump b) r) with (jitter_of b r).
  cbn [bump min].
  assert (Hu : (0 <= 1 + jitter_of b r)%Q) by (unfold jitter_of; nra).
  pose proof (raw_step b Hwf Hn) as Hraw.
  apply trunc_mono.
  - apply Qle_trans with (to_float (min b)); [lra|apply Q.le_max_l].
  - apply Q.max_le_compat_l. nra.
Qed.

Lemma total_delay_step (b : Backoff) (rs : list Q) :
  wf b → 0 <= attempt b < max_int → Forall is_draw rs →
  total_delay b rs <= total_delay (bump b) rs.
Proof.
  intros Hwf Hn Hrs. induction Hrs as [|r rs [Hr _] _ IH]; [reflexivity|].
  cbn [total_delay fold_right]. fold (total_delay b rs).
  fold (total_delay (bump b) rs).
  pose proof (delay_step b r Hwf Hn Hr). lia.
Qed.

Lemma mean_delay_step (b : Backoff) (rs : list Q) :
  wf b → 0 <= attempt b < max_int → Forall is_draw rs →
  (mean_delay b rs <= mean_delay (bump b) rs)%Q.
Proof.
  intros Hwf Hn Hrs. unfold mean_delay.
  pose proof (total_delay_step b rs Hwf Hn Hrs) as H.
  apply Qmult_le_compat_r.
  - now rewrite <- Zle_Qle.
  - apply Qinv_le_0_compat. change 0%Q with (inject_Z 0).
    rewrite <- Zle_Qle. lia.
Qed.


Lemma jitter_of_onto (b : Backoff) (v : Q) :
  (0 < jitter b)%Q → (- jitter b <= v)%Q → (v < jitter b)%Q →
  ∃ r, is_draw r ∧ (jitter_of b r == v)%Q.
Proof.
  intros Hj H1 H2. exists ((v + jitter b) / (2 * jitter b))%Q.
  assert (Hd : (0 < 2 * jitter b)%Q) by lra.
  split; [split|].
  - apply Qle_shift_div_l; [exact Hd|]. lra.
  - apply Qlt_shift_div_r; [exact Hd|]. lra.
  - unfold jitter_of. field. lra.
Qed.





Lemma attempt_calls (rs : list Q) (b : Backoff) :
  0 <= attempt b → attempt b + Z.of_nat (List.length rs) <= max_int →
  attempt (run_ops (List.map OpNext rs) b) = attempt b + Z.of_nat (List.length rs).
Proof.
  revert b. induction rs as [|r rs IH]; intros b H0 H1.
  - cbn. lia.
  - cbn [List.map List.length] in *.
    change (run_ops (OpNext r :: List.map OpNext rs) b)
      with (run_ops (List.map OpNext rs) (bump b)).
    assert (Hb : attempt (bump b) = attempt b + 1) by (apply attempt_bump; lia).
    rewrite IH; rewrite Hb; lia.
Qed.

Lemma calls_step (P : Backoff → Backoff → Prop) :
  (∀ b, P b b) → (∀ b1 b2 b3, P b1 b2 → P b2 b3 → P b1 b3) →
  (∀ b, wf b → 0 <= attempt b < max_int → P b (bump b)) →
  ∀ (rs : list Q) (b : Backoff),
    wf b → 0 <= attempt b →
    attempt b + Z.of_nat (List.length rs) <= max_int →
    P b (run_ops (List.map OpNext rs) b).
Proof.
  intros Hrefl Htrans Hstep rs. induction rs as [|r rs IH]; intros b Hwf H0 H1.
  - apply Hrefl.
  - cbn [List.map List.length] in *.
    change (run_ops (OpNext r :: List.map OpNext rs) b)
      with (run_ops (List.map OpNext rs) (bump b)).
    assert (Hb : attempt (bump b) = attempt b + 1) by (apply attempt_bump; lia).
    eapply Htrans; [apply Hstep; [exact Hwf|lia]|].
    apply IH; [now apply wf_bump|lia|lia].
Qed.





End backoff_facts.

(* ================================================================== *)
(** ** Facts about the wallet store *)
(* ================================================================== *)

Module store_facts.
Import store.

Lemma b58Value_all (s : string) (acc v : N) :
  b58Value s acc = Some v → allB58 s = true.
Proof.
  revert acc. induction s as [|c s IH]; intros acc H; [reflexivity|].
  cbn [b58Value] in H. cbn [allB58]. unfold b58char.
  destruct (b58Digit c) as [d|]; [|discriminate].
  simpl. now apply (IH _ H).
Qed.

Lemma b58Decode_all (s : string) (bs : list N) :
  b58Decode s = Some bs → s ≠ EmptyString ∧ allB58 s = true.
Proof.
  unfold b58Decode. destruct s as [|c s]; [discriminate|].
  destruct (b58Value (String c s) 0) as [v|] eqn:E; [|discriminate].
  intros _. split; [discriminate|]. now apply (b58Value_all _ _ _ E).
Qed.

(** No character of the alphabet starts or ends the encoding of a white
    space rune, and none is one of the four blanks [validateSolanaAddress]
    looks for. *)
Lemma b58char_not_space (c : ascii) (s : string) :
  b58char c = true →
  gostrings.stripAny gostrings.spaceRunes (String c s) = None ∧
  gostrings.stripAny (List.map gostrings.rev gostrings.spaceRunes) (String c s) = None ∧
  gostrings.IndexByte c (gostrings.bytes [32; 9; 13; 10]%N) = false.
Proof.
  destruct c as [[] [] [] [] [] [] [] []]; vm_compute; intros H;
    first [discriminate H | repeat split].
Qed.

Lemma trimLeftLoop_none (fuel : nat) (runes : list string) (s : string) :
  gostrings.stripAny runes s = None → gostrings.trimLeftLoop fuel runes s = s.
Proof.
  intros H. destruct fuel; cbn [gostrings.trimLeftLoop]; [reflexivity|].
  rewrite H. reflexivity.
Qed.

Lemma stripAny_b58 (s : string) :
  allB58 s = true →
  gostrings.stripAny gostrings.spaceRunes s = None ∧
  gostrings.stripAny (List.map gostrings.rev gostrings.spaceRunes) s = None.
Proof.
  destruct s as [|c s]; [intros _; split; vm_compute; reflexivity|].
  cbn [allB58]. intros [Hc _]%andb_true_iff.
  destruct (b58char_not_space c s Hc) as (H1 & H2 & _). split; assumption.
Qed.

Lemma TrimLeftSpace_b58 (s : string) :
  allB58 s = true → gostrings.TrimLeftSpace s = s.
Proof.
  intros H. unfold gostrings.TrimLeftSpace.
  apply trimLeftLoop_none. exact (proj1 (stripAny_b58 s H)).
Qed.

Lemma allB58_list (s : string) :
  allB58 s = true ↔ Forall (λ c, b58char c = true) (list_ascii_of_string s).
Proof.
  induction s as [|c s IH]; cbn [allB58 list_ascii_of_string].
  - split; [constructor|reflexivity].
  - rewrite andb_true_iff, Forall_cons, IH. reflexivity.
Qed.

Lemma rev_rev (s : string) : gostrings.rev (gostrings.rev s) = s.
Proof.
  unfold gostrings.rev. rewrite list_ascii_of_string_of_list_ascii.
  rewrite List.rev_involutive. apply string_of_list_ascii_of_string.
Qed.

Lemma allB58_rev (s : string) : allB58 s = true → allB58 (gostrings.rev s) = true.
Proof.
  rewrite !allB58_list. unfold gostrings.rev.
  rewrite list_ascii_of_string_of_list_ascii. apply List.Forall_rev.
Qed.

Lemma TrimRightSpace_b58 (s : string) :
  allB58 s = true → gostrings.TrimRightSpace s = s.
Proof.
  intros H. unfold gostrings.TrimRightSpace.
  rewrite trimLeftLoop_none; [apply rev_rev|].
  exact (proj2 (stripAny_b58 _ (allB58_rev s H))).
Qed.

Lemma TrimSpace_b58 (s : string) : allB58 s = true → gostrings.TrimSpace s = s.
Proof.
  intros H. unfold gostrings.TrimSpace.
  rewrite TrimLeftSpace_b58 by exact H. now apply TrimRightSpace_b58.
Qed.

Lemma ContainsAny_b58 (s : string) :
  allB58 s = true →
  gostrings.ContainsAny s (gostrings.bytes [32; 9; 13; 10]%N) = false.
Proof.
  induction s as [|c s IH]; [reflexivity|].
  cbn [allB58 gostrings.ContainsAny]. intros [Hc Hs]%andb_true_iff.
  rewrite (proj2 (proj2 (b58char_not_space c s Hc))). now apply IH.
Qed.

(** An address in the sense of the package: base58 text that decodes to
    32 bytes. *)
Lemma validate_ok (addr : string) (decoded : list N) :
  b58Decode addr = Some decoded → List.length decoded = 32%nat →
  validateSolanaAddress addr = None ∧ gostrings.TrimSpace addr = addr.
Proof.
  intros Hd Hl. destruct (b58Decode_all _ _ Hd) as [Hne Hall].
  split; [|now apply TrimSpace_b58].
  unfold validateSolanaAddress.
  destruct (String.eqb_spec addr "") as [->|_]; [contradiction|].
  rewrite ContainsAny_b58 by exact Hall. rewrite Hd, Hl. reflexivity.
Qed.


Lemma string_compare_trans_le (s1 s2 s3 : string) :
  String.compare s1 s2 ≠ Gt → String.compare s2 s3 ≠ Gt →
  String.compare s1 s3 ≠ Gt.
Proof.
  revert s2 s3. induction s1 as [|a s1 IH]; intros [|b s2] [|c s3];
    cbn [String.compare]; try congruence.
  unfold Ascii.compare.
  destruct (N.compare_spec (N_of_ascii a) (N_of_ascii b)) as [E1|L1|G1];
    destruct (N.compare_spec (N_of_ascii b) (N_of_ascii c)) as [E2|L2|G2];
    try congruence; intros H1 H2.
  - rewrite E1, E2, N.compare_refl. now apply (IH s2).
  - rewrite E1. now apply N.compare_lt_iff in L2 as ->.
  - rewrite <- E2. now apply N.compare_lt_iff in L1 as ->.
  - assert (L : (N_of_ascii a < N_of_ascii c)%N) by lia.
    now apply N.compare_lt_iff in L as ->.
Qed.

Lemma string_leb_compare (s1 s2 : string) :
  string_le s1 s2 ↔ String.compare s1 s2 ≠ Gt.
Proof.
  unfold string_le, String.leb. destruct (String.compare s1 s2); split;
    congruence.
Qed.

#[global] Instance string_le_trans : Transitive string_le.
Proof.
  intros s1 s2 s3. rewrite !string_leb_compare.
  apply string_compare_trans_le.
Qed.

#[global] Instance string_le_total : Total string_le.
Proof. intros s1 s2. apply String.leb_total. Qed.

Lemma ensureBucket_has (b : Bolt) : is_Some (ensureBucket b !! walletsBucket).
Proof.
  unfold ensureBucket. destruct (b !! walletsBucket) as [bkt|] eqn:E.
  - rewrite E. eauto.
  - rewrite lookup_insert_eq. eauto.
Qed.

(** What [AddWallet] does for an address that passes validation, in a
    live context and with the bucket in place. *)
Lemma AddWallet_ok (ctx : Context) (now addr : string) (b : Bolt) (bkt : Bucket) :
  done ctx = false → b !! walletsBucket = Some bkt →
  validateSolanaAddress addr = None → gostrings.TrimSpace addr = addr →
  AddWallet ctx now addr b =
    (None, match bkt !! addr with
           | Some _ => b
           | None => <[walletsBucket := <[addr := now]> bkt]> b
           end).
Proof.
  intros Hctx Hb Hv Ht. unfold AddWallet. cbv zeta.
  rewrite Ht, Hv, Hctx. unfold Update. rewrite Hb.
  destruct (bkt !! addr); reflexivity.
Qed.

Lemma RemoveWallet_ok (ctx : Context) (addr : string) (b : Bolt) (bkt : Bucket) :
  done ctx = false → b !! walletsBucket = Some bkt →
  validateSolanaAddress addr = None → gostrings.TrimSpace addr = addr →
  RemoveWallet ctx addr b =
    (None, <[walletsBucket := delete addr bkt]> b).
Proof.
  intros Hctx Hb Hv Ht. unfold RemoveWallet. cbv zeta.
  rewrite Ht, Hv, Hctx. unfold Update. rewrite Hb. reflexivity.
Qed.

Lemma ListWallets_ok (ctx : Context) (b : Bolt) (bkt : Bucket) :
  done ctx = false → b !! walletsBucket = Some bkt →
  ∃ l, ListWallets ctx b = (l, None) ∧
       StronglySorted string_le l ∧ NoDup l ∧
       ∀ a, a ∈ l ↔ is_Some (bkt !! a).
Proof.
  intros Hctx Hb. unfold ListWallets. rewrite Hctx, Hb. cbv zeta.
  eexists. split; [reflexivity|]. unfold sortStrings.
  assert (HP := merge_sort_Permutation string_le (map_to_list bkt).*1).
  split; [|split].
  - apply StronglySorted_merge_sort; apply _.
  - rewrite HP. apply NoDup_fst_map_to_list.
  - intros a. rewrite HP. rewrite list_elem_of_fmap. split.
    + intros [[k v] [-> Hin]]. apply elem_of_map_to_list in Hin.
      simpl. eauto.
    + intros [v Hv]. exists (a, v). split; [reflexivity|].
      now apply elem_of_map_to_list.
Qed.


(** C9. For an address that is base58 text decoding to exactly 32 bytes
    (in a context that is not cancelled, on a database whose wallets
    bucket exists, as [NewBolt] leaves it): [AddWallet] succeeds, and a
    second [AddWallet] succeeds and leaves the state the first one left;
    [RemoveWallet] succeeds whether or not the address is stored, changes
    nothing when it is not, and succeeds again on its own result;
    [ListWallets] returns exactly the stored addresses, each once, in
    lexicographic order. *)
Theorem wallet_store_contract
    (ctx : Context) (now1 now2 addr : string) (decoded : list N)
    (b : Bolt) (bkt : Bucket) :
  done ctx = false → b !! walletsBucket = Some bkt →
  b58Decode addr = Some decoded → List.length decoded = 32%nat →
  let r1 := AddWallet ctx now1 addr b in
  let r2 := AddWallet ctx now2 addr r1.2 in
  let rm := RemoveWallet ctx addr b in
  validateSolanaAddress addr = None ∧
  (r1.1 = None ∧ r2.1 = None ∧ r2.2 = r1.2) ∧
  (∃ bkt1, r1.2 !! walletsBucket = Some bkt1 ∧ is_Some (bkt1 !! addr) ∧
           ∀ a, a ≠ addr → bkt1 !! a = bkt !! a) ∧
  (rm.1 = None ∧ (bkt !! addr = None → rm.2 = b) ∧
   RemoveWallet ctx addr rm.2 = (None, rm.2) ∧
   ∃ bkt2, rm.2 !! walletsBucket = Some bkt2 ∧ bkt2 !! addr = None ∧
           ∀ a, a ≠ addr → bkt2 !! a = bkt !! a) ∧
  (∃ l, ListWallets ctx b = (l, None) ∧
        StronglySorted string_le l ∧ NoDup l ∧
        ∀ a, a ∈ l ↔ is_Some (bkt !! a)).
Proof.
  intros Hctx Hb Hd Hl. cbv zeta.
  destruct (validate_ok addr decoded Hd Hl) as [Hv Ht].
  split; [exact Hv|].
  rewrite (AddWallet_ok ctx now1 addr b bkt Hctx Hb Hv Ht).
  rewrite (RemoveWallet_ok ctx addr b bkt Hctx Hb Hv Ht).
  cbn [fst snd].
  split; [|split; [|split]].
  - destruct (bkt !! addr) as [v|] eqn:E.
    + rewrite (AddWallet_ok ctx now2 addr b bkt Hctx Hb Hv Ht), E.
      repeat split.
    + erewrite (AddWallet_ok ctx now2 addr _ (<[addr := now1]> bkt) Hctx
                  (lookup_insert_eq _ _ _) Hv Ht).
      rewrite lookup_insert_eq. repeat split.
  - destruct (bkt !! addr) as [v|] eqn:E.
    + exists bkt. rewrite E. repeat split; eauto.
    + exists (<[addr := now1]> bkt). rewrite !lookup_insert_eq.
      split; [reflexivity|]. split; [eauto|].
      intros a Ha. now rewrite lookup_insert_ne.
  - split; [reflexivity|]. split; [|split].
    + intros E. rewrite delete_id by exact E. now apply insert_id.
    + erewrite (RemoveWallet_ok ctx addr _ (delete addr bkt) Hctx
                  (lookup_insert_eq _ _ _) Hv Ht).
      rewrite insert_insert_eq. rewrite delete_delete_eq. reflexivity.
    + exists (delete addr bkt). rewrite !lookup_insert_eq, lookup_delete_eq.
      repeat split. intros a Ha. now rewrite lookup_delete_ne.
  - exact (ListWallets_ok ctx b bkt Hctx Hb).
Qed.

Lemma wallet_store_contract_witness :
  let ctx := {| done := false |} in
  let addr := "11111111111111111111111111111111"%string in
  let b := ensureBucket ∅ in
  b58Decode addr = Some (List.repeat 0%N 32) ∧
  (AddWallet ctx "t1" addr b).1 = None ∧
  (AddWallet ctx "t2" addr (AddWallet ctx "t1" addr b).2).2 =
    (AddWallet ctx "t1" addr b).2 ∧
  (RemoveWallet ctx addr b).1 = None.
Proof.
  cbv zeta.
  assert (Hd : b58Decode "11111111111111111111111111111111" =
               Some (List.repeat 0%N 32)) by (vm_compute; reflexivity).
  assert (Hb : ensureBucket ∅ !! walletsBucket = Some (∅ : gmap string string))
    by (vm_compute; reflexivity).
  destruct (wallet_store_contract {| done := false |} "t1" "t2"
              "11111111111111111111111111111111" (List.repeat 0%N 32)
              (ensureBucket ∅) ∅ eq_refl Hb Hd eq_refl)
    as (_ & (H1 & _ & H2) & _ & (H3 & _) & _).
  split; [exact Hd|]. split; [exact H1|]. split; [exact H2|exact H3].
Defined.

End store_facts.

(* ================================================================== *)
(** ** Facts about the Subscriber *)
(* ================================================================== *)

Module tracker_facts.
Import tracker.

(** C1. [isNotif] applies its tests in order.  A text the decoder rejects
    is not a notification.  Of a decoded object: one with a top-level
    "result" is an acknowledgement, never a notification; failing that,
    one whose "method" is a string containing "account" (in any case) and
    which has "params" is a notification; failing that too, one whose
    "params" is an object with a "result" inside is a notification.  So
    {"result": 42} is not one, {"method": "accountNotification",
    "params": {"result": ...}} and {"params": {"result": ...}} are, and
    {} is not. *)
Theorem isNotif_classifies
    (Unmarshal : string → option (gmap string any)) (raw : string) :
  match Unmarshal raw with
  | None => isNotif Unmarshal raw = false
  | Some m =>
      (is_Some (m !! "result") → isNotif Unmarshal raw = false) ∧
      (∀ meth,
         m !! "result" = None → m !! "method" = Some (JString meth) →
         gostrings.Contains (gostrings.ToLower meth) "account" = true →
         is_Some (m !! "params") → isNotif Unmarshal raw = true) ∧
      (∀ params,
         m !! "result" = None → m !! "params" = Some (JObject params) →
         is_Some (params !! "result") → isNotif Unmarshal raw = true) ∧
      (m = {[ "result" := JNumber 42 ]} → isNotif Unmarshal raw = false) ∧
      (∀ payload,
         m = {[ "method" := JString "accountNotification";
                "params" := JObject {[ "result" := payload ]} ]} →
         isNotif Unmarshal raw = true) ∧
      (∀ payload,
         m = {[ "params" := JObject {[ "result" := payload ]} ]} →
         isNotif Unmarshal raw = true) ∧
      (m = ∅ → isNotif Unmarshal raw = false)
  end.
Proof.
  unfold isNotif. destruct (Unmarshal raw) as [m|]; [|reflexivity].
  repeat split.
  - intros [v ->]. reflexivity.
  - intros meth -> -> -> [v ->]. reflexivity.
  - intros params -> -> [v ->].
    destruct (match m !! "method" with
              | Some (JString meth) =>
                  if gostrings.Contains (gostrings.ToLower meth) "account"
                  then true else false
              | _ => false
              end); reflexivity.
  - intros ->. vm_compute. reflexivity.
  - intros payload ->. vm_compute. reflexivity.
  - intros payload ->. vm_compute. reflexivity.
  - intros ->. vm_compute. reflexivity.
Qed.


(** **** [Stop] *)

Lemma stop_inv_init (n : nat) (s : Subscriber) :
  stopOnce s = false → stopCh s = ChanOpen →
  stop_inv (concurrent_stops n s).
Proof.
  intros H1 H2. split.
  - intros i p Hp. cbn [concurrent_stops sh_calls] in Hp.
    apply lookup_replicate in Hp as [-> _]. cbn.
    split; [discriminate|]. split; [split; discriminate|discriminate].
  - left. repeat split; assumption.
Qed.

(** The entry of the moving call changes to [q]; the mutex and the
    subscriber are given anew. *)
Lemma stop_inv_move (σ : Shared) (i : nat) (p q : stop_pc)
    (s' : Subscriber) (m' : option nat) (e' : list stop_effect) :
  stop_inv σ → sh_calls σ !! i = Some p →
  q ≠ CallPanicked →
  (crit q = true ↔ m' = Some i) →
  (∀ j, j ≠ i → (m' = Some j ↔ sh_mutex σ = Some j)) →
  (q = CallReturned → stopOnce s' = true) →
  (stopOnce (sh_sub σ) = true → stopOnce s' = true) →
  holder_ok (mkShared s' m' (<[i := q]> (sh_calls σ)) e') →
  stop_inv (mkShared s' m' (<[i := q]> (sh_calls σ)) e').
Proof.
  intros [Hc Hh] Hi Hq Hcrit Hm Hret Hmono Hh'. split; [|exact Hh'].
  intros j pj Hj. cbn [sh_calls sh_mutex sh_sub] in *.
  destruct (decide (i = j)) as [->|Hne].
  - rewrite list_lookup_insert_eq in Hj by (eapply lookup_lt_Some; eauto).
    injection Hj as <-. split; [exact Hq|split; [exact Hcrit|exact Hret]].
  - rewrite list_lookup_insert_ne in Hj by exact Hne.
    destruct (Hc j pj Hj) as (H1 & H2 & H3).
    split; [exact H1|]. split.
    + rewrite H2. symmetry. apply Hm. congruence.
    + intros E. apply Hmono. now apply H3.
Qed.

Lemma stop_inv_step (i : nat) (σ : Shared) :
  stop_inv σ → stop_inv (stop_step i σ).
Proof.
  intros Hinv. pose proof Hinv as [Hc Hh].
  unfold stop_step. destruct (sh_calls σ !! i) as [p|] eqn:Hi; [|exact Hinv].
  destruct (Hc i p Hi) as (Hnp & Hcrit & Hret).
  assert (Hlt : (i < List.length (sh_calls σ))%nat)
    by (eapply lookup_lt_Some; eauto).
  destruct σ as [s m calls es]. cbn [sh_sub sh_mutex sh_calls sh_effects] in *.
  unfold holder_ok, pristine, finished in Hh.
  cbn [sh_sub sh_mutex sh_calls sh_effects] in Hh.
  destruct p; cbn [crit] in Hcrit.
  - (* CallStart *)
    assert (Hm : m ≠ Some i) by (intros E; apply Hcrit in E; discriminate).
    assert (Hh' : ∀ q, holder_ok (mkShared s m (<[i := q]> calls) es)).
    { intros q. unfold holder_ok, pristine, finished in *.
      cbn [sh_sub sh_mutex sh_calls sh_effects] in *.
      destruct m as [j|]; [|exact Hh].
      rewrite list_lookup_insert_ne by congruence. exact Hh. }
    destruct (stopOnce s) eqn:Hd; unfold at_call;
      cbn [sh_sub sh_mutex sh_calls sh_effects];
      apply (stop_inv_move (mkShared s m calls es) i _ _ s m es Hinv Hi);
      cbn [sh_sub sh_mutex sh_calls sh_effects crit];
      [discriminate | split; [discriminate|contradiction] | tauto
      | tauto | tauto | apply Hh'
      | discriminate | split; [discriminate|contradiction] | tauto
      | discriminate | tauto | apply Hh'].
  - (* CallLock *)
    destruct m as [j|]; [exact Hinv|].
    unfold at_call, with_mutex; cbn [sh_sub sh_mutex sh_calls sh_effects].
    apply (stop_inv_move (mkShared s None calls es) i _ _ s (Some i) es Hinv Hi);
      cbn [sh_sub sh_mutex sh_calls sh_effects crit].
    + discriminate.
    + tauto.
    + intros j Hj. split; [congruence|discriminate].
    + discriminate.
    + tauto.
    + unfold holder_ok, pristine, finished in *.
      cbn [sh_sub sh_mutex sh_calls sh_effects] in *.
      rewrite list_lookup_insert_eq by exact Hlt. exact Hh.
  - (* CallCheck *)
    assert (Hm : m = Some i) by now apply Hcrit. subst m.
    rewrite Hi in Hh.
    destruct (stopOnce s) eqn:Hd; unfold at_call;
      cbn [sh_sub sh_mutex sh_calls sh_effects];
      apply (stop_inv_move (mkShared s (Some i) calls es) i _ _ s (Some i) es Hinv Hi);
      cbn [sh_sub sh_mutex sh_calls sh_effects crit];
      try discriminate; try tauto;
      unfold holder_ok, pristine, finished in *;
      cbn [sh_sub sh_mutex sh_calls sh_effects] in *;
      rewrite list_lookup_insert_eq by exact Hlt.
    + rewrite Hd. destruct Hh as [(E & _)|Hh]; [congruence|exact Hh].
    + rewrite Hd. destruct Hh as [Hh|(E & _)]; [exact Hh|congruence].
  - (* CallStore *)
    assert (Hm : m = Some i) by now apply Hcrit. subst m.
    rewrite Hi in Hh. destruct Hh as (H1 & H2 & H3).
    unfold at_call, emit, with_sub; cbn [sh_sub sh_mutex sh_calls sh_effects].
    apply (stop_inv_move (mkShared s (Some i) calls es) i _ _
             (set_shouldOpen false s) (Some i) (es ++ [StoreShouldOpen false])
             Hinv Hi);
      cbn [sh_sub sh_mutex sh_calls sh_effects crit];
      try discriminate; try tauto.
    unfold holder_ok. cbn [sh_sub sh_mutex sh_calls sh_effects].
    rewrite list_lookup_insert_eq by exact Hlt.
    cbn. rewrite H3. repeat split; assumption.
  - (* CallClose *)
    assert (Hm : m = Some i) by now apply Hcrit. subst m.
    rewrite Hi in Hh. destruct Hh as (H1 & H2 & H3 & H4).
    rewrite H2. cbn [close].
    unfold at_call, emit, with_sub; cbn [sh_sub sh_mutex sh_calls sh_effects].
    apply (stop_inv_move (mkShared s (Some i) calls es) i _ _
             (set_stopCh ChanClosed s) (Some i) (es ++ [CloseStopCh])
             Hinv Hi);
      cbn [sh_sub sh_mutex sh_calls sh_effects crit];
      try discriminate; try tauto.
    unfold holder_ok. cbn [sh_sub sh_mutex sh_calls sh_effects].
    rewrite list_lookup_insert_eq by exact Hlt.
    cbn. rewrite H4. repeat split; assumption.
  - (* CallDone *)
    assert (Hm : m = Some i) by now apply Hcrit. subst m.
    rewrite Hi in Hh. destruct Hh as (H1 & H2 & H3 & H4).
    unfold at_call, with_sub; cbn [sh_sub sh_mutex sh_calls sh_effects].
    apply (stop_inv_move (mkShared s (Some i) calls es) i _ _
             (set_stopOnce true s) (Some i) es Hinv Hi);
      cbn [sh_sub sh_mutex sh_calls sh_effects crit];
      try discriminate; try tauto.
    unfold holder_ok. cbn [sh_sub sh_mutex sh_calls sh_effects].
    rewrite list_lookup_insert_eq by exact Hlt.
    repeat split; assumption.
  - (* CallUnlock *)
    assert (Hm : m = Some i) by now apply Hcrit. subst m.
    rewrite Hi in Hh. destruct Hh as (H1 & H2 & H3 & H4).
    unfold at_call, with_mutex; cbn [sh_sub sh_mutex sh_calls sh_effects].
    apply (stop_inv_move (mkShared s (Some i) calls es) i _ _ s None es Hinv Hi);
      cbn [sh_sub sh_mutex sh_calls sh_effects crit].
    + discriminate.
    + split; discriminate.
    + intros j Hj. split; [discriminate|congruence].
    + intros _. exact H1.
    + tauto.
    + unfold holder_ok. cbn [sh_sub sh_mutex sh_calls sh_effects].
      right. repeat split; assumption.
  - exact Hinv.
  - exact Hinv.
Qed.

Lemma stop_inv_run (sched : list nat) (σ : Shared) :
  stop_inv σ → stop_inv (run_schedule sched σ).
Proof.
  revert σ. induction sched as [|i sched IH]; intros σ H; [exact H|].
  cbn [run_schedule fold_left]. apply IH. now apply stop_inv_step.
Qed.


Lemma stop_effects_cases (σ : Shared) :
  stop_inv σ →
  sh_effects σ = [] ∨ sh_effects σ = [StoreShouldOpen false] ∨
  sh_effects σ = both.
Proof.
  intros [_ Hh]. unfold holder_ok, pristine, finished in Hh.
  destruct (sh_mutex σ) as [i|].
  - destruct (sh_calls σ !! i) as [[]|]; try contradiction; tauto.
  - tauto.
Qed.

(** As long as a call has not returned, some call can move. *)
Lemma stop_can_move (σ : Shared) :
  stop_inv σ →
  (∃ i p, sh_calls σ !! i = Some p ∧ p ≠ CallReturned) →
  ∃ j p q, sh_calls σ !! j = Some p ∧
           sh_calls (stop_step j σ) !! j = Some q ∧ q ≠ p.
Proof.
  intros [Hc Hh] (i & p & Hi & Hp).
  assert (Hmove : ∀ j pj q σ',
            sh_calls σ !! j = Some pj →
            sh_calls σ' = <[j := q]> (sh_calls σ) →
            sh_calls σ' !! j = Some q).
  { intros j pj q σ' Hj ->. apply list_lookup_insert_eq.
    eapply lookup_lt_Some; eauto. }
  unfold holder_ok, pristine in Hh.
  destruct (sh_mutex σ) as [h|] eqn:Hm.
  - destruct (sh_calls σ !! h) as [ph|] eqn:Hh'; [|contradiction].
    exists h, ph. unfold stop_step. rewrite Hh'.
    destruct ph; try contradiction.
    + destruct (stopOnce (sh_sub σ)); eexists;
        (split; [reflexivity|split; [eapply Hmove; eauto|discriminate]]).
    + eexists. split; [reflexivity|split; [eapply Hmove; eauto|discriminate]].
    + destruct Hh as (_ & -> & _). cbn [close].
      eexists. split; [reflexivity|split; [eapply Hmove; eauto|discriminate]].
    + eexists. split; [reflexivity|split; [eapply Hmove; eauto|discriminate]].
    + eexists. split; [reflexivity|split; [eapply Hmove; eauto|discriminate]].
  - destruct (Hc i p Hi) as (Hnp & Hcrit & _).
    exists i, p. unfold stop_step. rewrite Hi, ?Hm.
    destruct p; cbn [crit] in Hcrit;
      try contradiction; try (destruct Hcrit as [Hcrit _];
                              specialize (Hcrit eq_refl); discriminate).
    + destruct (stopOnce (sh_sub σ)); eexists;
        (split; [reflexivity|split; [eapply Hmove; eauto|discriminate]]).
    + eexists. split; [reflexivity|split; [eapply Hmove; eauto|discriminate]].
Qed.

Lemma sum_rank_insert (l : list stop_pc) (j : nat) (p q : stop_pc) :
  l !! j = Some p →
  (sum_list (call_rank <$> <[j := q]> l) + call_rank p =
   sum_list (call_rank <$> l) + call_rank q)%nat.
Proof.
  revert j. induction l as [|x l IH]; intros [|j] H; try discriminate.
  - injection H as ->. csimpl. lia.
  - csimpl in *. specialize (IH j H). lia.
Qed.

Lemma stop_move_rank (σ : Shared) (j : nat) (p q : stop_pc) :
  sh_calls σ !! j = Some p →
  sh_calls (stop_step j σ) !! j = Some q → q ≠ p →
  (call_rank q < call_rank p)%nat ∧
  sh_calls (stop_step j σ) = <[j := q]> (sh_calls σ).
Proof.
  intros Hj Hq Hne.
  assert (Hlt : (j < List.length (sh_calls σ))%nat) by (eapply lookup_lt_Some; eauto).
  unfold stop_step in *. rewrite Hj in *.
  destruct p.
  - destruct (stopOnce (sh_sub σ)); cbn in Hq |- *;
      rewrite list_lookup_insert_eq in Hq by exact Hlt;
      injection Hq as <-; cbn; split; first [lia|reflexivity].
  - destruct (sh_mutex σ); [rewrite Hj in Hq; congruence|].
    cbn in Hq |- *. rewrite list_lookup_insert_eq in Hq by exact Hlt.
    injection Hq as <-; cbn; split; first [lia|reflexivity].
  - destruct (stopOnce (sh_sub σ)); cbn in Hq |- *;
      rewrite list_lookup_insert_eq in Hq by exact Hlt;
      injection Hq as <-; cbn; split; first [lia|reflexivity].
  - cbn in Hq |- *. rewrite list_lookup_insert_eq in Hq by exact Hlt.
    injection Hq as <-; cbn; split; first [lia|reflexivity].
  - destruct (close (stopCh (sh_sub σ))); cbn in Hq |- *;
      rewrite list_lookup_insert_eq in Hq by exact Hlt;
      injection Hq as <-; cbn; split; first [lia|reflexivity].
    (* the panic case: rank 0 < 3 *)
  - cbn in Hq |- *. rewrite list_lookup_insert_eq in Hq by exact Hlt.
    injection Hq as <-; cbn; split; first [lia|reflexivity].
  - cbn in Hq |- *. rewrite list_lookup_insert_eq in Hq by exact Hlt.
    injection Hq as <-; cbn; split; first [lia|reflexivity].
  - rewrite Hj in Hq. congruence.
  - rewrite Hj in Hq. congruence.
Qed.

(** From any state the calls can reach, there is a way to schedule them
    so that every one of them returns. *)
Lemma stop_all_return (σ : Shared) :
  stop_inv σ →
  ∃ sched, (List.length sched ≤ total_rank σ)%nat ∧
           ∀ i p, sh_calls (run_schedule sched σ) !! i = Some p →
                  p = CallReturned.
Proof.
  remember (total_rank σ) as k eqn:Hk. revert σ Hk.
  induction k as [k IH] using lt_wf_ind. intros σ Hk Hinv.
  destruct (decide (Forall (λ p, p = CallReturned) (sh_calls σ))) as [Hall|Hnot].
  - exists []. split; [cbn; lia|]. intros i p Hi. cbn in Hi.
    rewrite Forall_lookup in Hall. eapply Hall; eauto.
  - apply not_Forall_Exists in Hnot; [|intros p; apply _].
    apply Exists_exists in Hnot as (p & Hin & Hp).
    apply list_elem_of_lookup in Hin as [i Hi].
    destruct (stop_can_move σ Hinv (ex_intro _ i (ex_intro _ p (conj Hi Hp))))
      as (j & pj & qj & Hj & Hq & Hne).
    destruct (stop_move_rank σ j pj qj Hj Hq Hne) as [Hr Hcalls].
    pose proof (sum_rank_insert (sh_calls σ) j pj qj Hj) as Hsum.
    assert (Hlt : (total_rank (stop_step j σ) < k)%nat).
    { subst k. unfold total_rank. rewrite Hcalls. lia. }
    destruct (IH _ Hlt (stop_step j σ) eq_refl (stop_inv_step j σ Hinv))
      as (sched & Hlen & Hall).
    exists (j :: sched). split; [cbn [List.length]; lia|exact Hall].
Qed.

Lemma StopTimes_done (n : nat) (s : Subscriber) :
  stopOnce s = true → StopTimes n s = Some (s, []).
Proof.
  intros H. induction n as [|n IH]; [reflexivity|].
  cbn [StopTimes]. unfold Stop. rewrite H, IH. reflexivity.
Qed.

(** C3. Any number of calls of [Stop] on one Subscriber, one after the
    other or interleaved in any way: no call panics, [stopCh] is closed at
    most once and, as soon as one call has returned, exactly once, with
    [shouldOpen] false; a call made after the first has returned does
    nothing; the calls never block one another for good, and from
    wherever they stand they can all run to their return. *)
Theorem Stop_idempotent
    (wss commitment addr : string) (n : nat) (sched : list nat) :
  let s0 := NewSubscriber wss commitment addr in
  let σ := run_schedule sched (concurrent_stops n s0) in
  (∃ s1, Stop s0 = Some (s1, [StoreShouldOpen false; CloseStopCh]) ∧
         shouldOpen s1 = false ∧ stopCh s1 = ChanClosed ∧
         Stop s1 = Some (s1, []) ∧
         StopTimes (S n) s0 = Some (s1, [StoreShouldOpen false; CloseStopCh])) ∧
  (∀ i, sh_calls σ !! i ≠ Some CallPanicked) ∧
  (count_closes (sh_effects σ) ≤ 1)%nat ∧
  ((∃ i, sh_calls σ !! i = Some CallReturned) →
   shouldOpen (sh_sub σ) = false ∧ stopCh (sh_sub σ) = ChanClosed ∧
   sh_effects σ = [StoreShouldOpen false; CloseStopCh]) ∧
  ((∃ i p, sh_calls σ !! i = Some p ∧ p ≠ CallReturned) →
   ∃ j p q, sh_calls σ !! j = Some p ∧
            sh_calls (stop_step j σ) !! j = Some q ∧ q ≠ p) ∧
  (∃ more, ∀ i p, sh_calls (run_schedule more σ) !! i = Some p →
                  p = CallReturned).
Proof.
  cbv zeta.
  set (s0 := NewSubscriber wss commitment addr).
  assert (Hinv : stop_inv (run_schedule sched (concurrent_stops n s0))).
  { apply stop_inv_run, stop_inv_init; reflexivity. }
  split; [|split; [|split; [|split; [|split]]]];
    [| | | |now apply stop_can_move
    |destruct (stop_all_return _ Hinv) as (more & _ & H); now exists more].
  - eexists. split; [reflexivity|]. split; [reflexivity|].
    split; [reflexivity|]. split; [reflexivity|].
    cbn [StopTimes]. unfold Stop at 1. cbn.
    rewrite StopTimes_done by reflexivity. reflexivity.
  - intros i Hi. destruct Hinv as [Hc _].
    destruct (Hc i _ Hi) as (Hne & _). now apply Hne.
  - destruct (stop_effects_cases _ Hinv) as [->| [->| ->]]; cbn; lia.
  - intros [i Hi]. pose proof Hinv as [Hc Hh].
    destruct (Hc i _ Hi) as (_ & _ & Hd). specialize (Hd eq_refl).
    unfold holder_ok, pristine, finished in Hh.
    destruct (sh_mutex _) as [j|].
    + destruct (sh_calls _ !! j) as [[]|]; try contradiction;
        intuition congruence.
    + intuition congruence.
Qed.

(** **** [Run] *)

Section RunFacts.

Variable Unmarshal : string → option (gmap string any).

#[local] Abbreviation step := (tracker.step Unmarshal).
#[local] Abbreviation occur := (tracker.occur Unmarshal).
#[local] Abbreviation exec := (tracker.exec Unmarshal).

Lemma run_inv_start (wss commitment addr : string) (hook : bool) :
  run_inv (start (NewSubscriber wss commitment addr) hook).
Proof. split; [split; discriminate|reflexivity]. Qed.

Lemma step_cases (w w' : World) (rp : reply) (r : Q) (acts : list action) :
  step w rp r = Some (w', acts) →
  ctxDone w' = ctxDone w ∧ stopCh (sub w') = stopCh (sub w) ∧
  stopOnce (sub w') = stopOnce (sub w) ∧
  shouldOpen (sub w') = shouldOpen (sub w) ∧
  ((pc w = AtTop ∧ rp = Proceed ∧ acts = [] ∧ sub w' = sub w ∧
    pc w' = (if stop_requested w then Returned else AtDial)) ∨
   (pc w = AtDial ∧ acts = [ActDial] ∧
    ((rp = DialErr ∧ sub w' = sub w ∧ ∃ d, pc w' = AtWait d) ∨
     (rp = DialOk ∧ pc w' = AtSubscribe ∧ open (sub w') = true ∧
      bo w' = util.Reset (bo w)))) ∨
   (pc w = AtSubscribe ∧
    ((rp = WriteErr ∧ acts = [ActSubscribe; ActCloseConn] ∧
      open (sub w') = false ∧ ∃ d, pc w' = AtWait d) ∨
     (rp = WriteOk ∧ acts = [ActSubscribe] ∧ w' = goto AtRead w))) ∨
   (pc w = AtRead ∧
    ((∃ raw, rp = ReadMsg raw ∧ w' = w ∧
             acts = (if isNotif Unmarshal raw
                     then if ActivityNotify w then [ActNotify (link (sub w))]
                          else []
                     else [])) ∨
     (rp = ReadErr ∧ acts = [ActCloseConn] ∧ open (sub w') = false ∧
      ∃ d, pc w' = AtWait d))) ∨
   (∃ d, pc w = AtWait d ∧ acts = [] ∧ sub w' = sub w ∧
         ((rp = FiresCtx ∧ ctxDone w = true ∧ pc w' = Returned) ∨
          (rp = FiresStop ∧ ready (stopCh (sub w)) = true ∧ pc w' = Returned) ∨
          (rp = FiresTimer ∧ pc w' = AtTop)))).
Proof.
  unfold step. destruct w as [s c b p hook]. cbn [pc].
  destruct p, rp; try discriminate; intros H.
  - (* AtTop *)
    unfold stop_requested in *. cbn in *.
    destruct (c || ready (stopCh s)); injection H as <- <-; cbn;
      repeat split; left; repeat split.
  - (* DialOk *)
    injection H as <- <-. cbn. repeat split. right; left. repeat split.
    right. repeat split.
  - (* DialErr *)
    injection H as <- <-. cbn. repeat split. right; left. repeat split.
    left. repeat split. eauto.
  - (* WriteOk *)
    injection H as <- <-. cbn. repeat split. do 2 right; left. repeat split.
    right. repeat split.
  - (* WriteErr *)
    injection H as <- <-. cbn. repeat split. do 2 right; left. repeat split.
    left. repeat split. eauto.
  - (* ReadMsg *)
    cbn in H.
    assert (E : w' = mkWorld s c b AtRead hook ∧
                acts = (if isNotif Unmarshal raw
                        then if hook then [ActNotify (link s)] else []
                        else [])).
    { destruct (isNotif Unmarshal raw); injection H as <- <-; split; reflexivity. }
    destruct E as [-> ->]. cbn. repeat split. do 3 right; left. repeat split.
    left. exists raw. repeat split.
  - (* ReadErr *)
    injection H as <- <-. cbn. repeat split. do 3 right; left. repeat split.
    right. repeat split. eauto.
  - (* FiresCtx *)
    cbn in H. destruct c eqn:Hc; [|discriminate]. injection H as <- <-. cbn.
    repeat split. do 4 right. exists wait. repeat split. left. repeat split.
  - (* FiresStop *)
    cbn in H. destruct (ready (stopCh s)) eqn:Hs; [|discriminate].
    injection H as <- <-. cbn.
    repeat split. do 4 right. exists wait. repeat split.
    right; left. repeat split. exact Hs.
  - (* FiresTimer *)
    injection H as <- <-. cbn.
    repeat split. do 4 right. exists wait. repeat split.
    right; right. repeat split.
Qed.


Lemma dials_app (t1 t2 : list item) : dials (t1 ++ t2) = (dials t1 + dials t2)%nat.
Proof. unfold dials. now rewrite List.filter_app, List.length_app. Qed.

Lemma dials_after_stop_Did (acts : list action) (t : list item) :
  dials_after_stop (List.map Did acts ++ t) = dials_after_stop t.
Proof. induction acts as [|a acts IH]; [reflexivity|exact IH]. Qed.

Lemma occur_inv (ev : event) (w w' : World) (t : list item) :
  run_inv w → occur ev w = Some (w', t) → run_inv w'.
Proof.
  intros [Ho Hp] H. destruct ev as [rp r| |]; cbn [tracker.occur] in H.
  - destruct (step w rp r) as [[w1 acts]|] eqn:E; [|discriminate].
    injection H as <- <-.
    destruct (step_cases _ _ _ _ _ E) as (Hc & Hch & Hon & Hsh & Hcase).
    split; [now rewrite Hch, Hon|].
    intros N1 N2.
    destruct Hcase as
      [(Hpc & _ & _ & Hs & Hpc')
      |[(Hpc & _ & [(_ & Hs & d & Hpc')|(_ & Hpc' & _)])
      |[(Hpc & [(_ & _ & Hop & _)|(_ & _ & ->)])
      |[(Hpc & [(raw & _ & -> & _)|(_ & _ & Hop & _)])
      |(d & Hpc & _ & Hs & _)]]]].
    + rewrite Hs. apply Hp; rewrite Hpc; discriminate.
    + rewrite Hs. apply Hp; rewrite Hpc; discriminate.
    + contradiction.
    + exact Hop.
    + cbn in N2. contradiction.
    + apply Hp; assumption.
    + exact Hop.
    + rewrite Hs. apply Hp; rewrite Hpc; discriminate.
  - unfold Stop in H. destruct (stopOnce (sub w)) eqn:Hd.
    + injection H as <- <-. split; cbn; [rewrite Hd; exact Ho|exact Hp].
    + destruct (stopCh (sub w)) eqn:Hch; cbn in H; [|discriminate].
      injection H as <- <-. split; cbn; [tauto|exact Hp].
  - injection H as <- <-. split; cbn; [exact Ho|exact Hp].
Qed.

Lemma exec_inv (evs : list event) (w w' : World) (t : list item) :
  run_inv w → exec w evs = Some (w', t) → run_inv w'.
Proof.
  revert w t. induction evs as [|ev evs IH]; intros w t Hw H.
  - injection H as <- <-. exact Hw.
  - cbn [tracker.exec] in H.
    destruct (occur ev w) as [[w1 t1]|] eqn:E1; [|discriminate].
    destruct (exec w1 evs) as [[w2 t2]|] eqn:E2; [|discriminate].
    injection H as <- <-. eapply IH; [|exact E2]. eapply occur_inv; eauto.
Qed.

(** One event, once a stop has been requested. *)
Lemma occur_after_stop (ev : event) (w w' : World) (t : list item) :
  stop_requested w = true → occur ev w = Some (w', t) →
  stop_requested w' = true ∧
  ((if is_progress ev then 1 else 0) + steps_left (pc w') ≤ steps_left (pc w))%nat ∧
  (dials t + dial_budget (pc w') ≤ dial_budget (pc w))%nat.
Proof.
  intros Hs H. destruct ev as [rp r| |]; cbn [tracker.occur] in H.
  - destruct (step w rp r) as [[w1 acts]|] eqn:E; [|discriminate].
    injection H as <- <-.
    destruct (step_cases _ _ _ _ _ E) as (Hc & Hch & Hon & Hsh & Hcase).
    assert (Hs' : stop_requested w1 = true).
    { unfold stop_requested in *. now rewrite Hc, Hch. }
    split; [exact Hs'|].
    destruct Hcase as
      [(Hpc & -> & -> & _ & Hpc')
      |[(Hpc & -> & [(-> & _ & d & Hpc')|(-> & Hpc' & _)])
      |[(Hpc & [(-> & -> & _ & d & Hpc')|(-> & -> & ->)])
      |[(Hpc & [(raw & -> & -> & ->)|(-> & -> & _ & d & Hpc')])
      |(d & Hpc & -> & _ & [(-> & _ & Hpc')|[(-> & _ & Hpc')|(-> & Hpc')]])]]]];
      try rewrite Hs in Hpc'; rewrite ?Hpc, ?Hpc'; cbn; try lia.
    destruct (isNotif Unmarshal raw); [destruct (ActivityNotify w)|];
      cbn; lia.
  - unfold Stop in H. destruct (stopOnce (sub w)) eqn:Hd.
    + injection H as <- <-. cbn. split; [exact Hs|lia].
    + destruct (stopCh (sub w)) eqn:Hch; cbn in H; [|discriminate].
      injection H as <- <-. unfold stop_requested. cbn.
      split; [apply orb_true_r|lia].
  - injection H as <- <-. unfold stop_requested. cbn. split; [reflexivity|lia].
Qed.

Lemma exec_after_stop (evs : list event) (w w' : World) (t : list item) :
  stop_requested w = true → exec w evs = Some (w', t) →
  stop_requested w' = true ∧
  (progress_steps evs + steps_left (pc w') ≤ steps_left (pc w))%nat ∧
  (dials t + dial_budget (pc w') ≤ dial_budget (pc w))%nat.
Proof.
  revert w t. induction evs as [|ev evs IH]; intros w t Hs H.
  - injection H as <- <-. cbn. split; [exact Hs|lia].
  - cbn [tracker.exec] in H.
    destruct (occur ev w) as [[w1 t1]|] eqn:E1; [|discriminate].
    destruct (exec w1 evs) as [[w2 t2]|] eqn:E2; [|discriminate].
    injection H as <- <-.
    destruct (occur_after_stop _ _ _ _ Hs E1) as (Hs1 & Hp1 & Hd1).
    destruct (IH _ _ Hs1 E2) as (Hs2 & Hp2 & Hd2).
    split; [exact Hs2|]. rewrite dials_app.
    unfold progress_steps in *. cbn [List.filter].
    destruct (is_progress ev); cbn [List.length] in *; lia.
Qed.

(** Over a whole run: at most one dial follows the first stop request. *)
Lemma exec_dials_after_stop (evs : list event) (w w' : World) (t : list item) :
  run_inv w → exec w evs = Some (w', t) → (dials_after_stop t ≤ 1)%nat.
Proof.
  revert w t. induction evs as [|ev evs IH]; intros w t Hw H.
  - injection H as <- <-. cbn. lia.
  - cbn [tracker.exec] in H.
    destruct (occur ev w) as [[w1 t1]|] eqn:E1; [|discriminate].
    destruct (exec w1 evs) as [[w2 t2]|] eqn:E2; [|discriminate].
    injection H as <- <-.
    pose proof (occur_inv _ _ _ _ Hw E1) as Hw1.
    destruct ev as [rp r| |]; cbn [tracker.occur] in E1.
    + destruct (step w rp r) as [[w1' acts]|]; [|discriminate].
      injection E1 as <- <-. rewrite dials_after_stop_Did. eapply IH; eauto.
    + destruct (Stop (sub w)) as [[s' es]|] eqn:ES; [|discriminate].
      injection E1 as <- <-. cbn [app dials_after_stop].
      assert (Hs1 : stop_requested
                (mkWorld s' (ctxDone w) (bo w) (pc w) (ActivityNotify w)) = true).
      { unfold stop_requested. cbn. destruct Hw1 as [Ho _]. cbn in Ho.
        unfold Stop in ES. destruct (stopOnce (sub w)) eqn:Hd.
        - injection ES as <- <-. rewrite (proj1 Ho Hd). apply orb_true_r.
        - destruct (stopCh (sub w)); cbn in ES; [|discriminate].
          injection ES as <- <-. apply orb_true_r. }
      destruct (exec_after_stop _ _ _ _ Hs1 E2) as (_ & _ & Hd).
      cbn [pc] in Hd. destruct (pc w); cbn in Hd; lia.
    + injection E1 as <- <-. cbn [app dials_after_stop].
      assert (Hs1 : stop_requested
                (mkWorld (sub w) true (bo w) (pc w) (ActivityNotify w)) = true)
        by reflexivity.
      destruct (exec_after_stop _ _ _ _ Hs1 E2) as (_ & _ & Hd).
      cbn [pc] in Hd. destruct (pc w); cbn in Hd; lia.
Qed.

(** Wherever [Run] stands short of having returned, it can take a step
    that is not the arrival of a message. *)
Lemma can_progress (w : World) :
  pc w ≠ Returned →
  ∃ rp r w' acts, is_progress (EvRun rp r) = true ∧
                  step w rp r = Some (w', acts).
Proof.
  intros Hp. destruct w as [s c b p hook]. cbn [pc] in Hp.
  destruct p; try contradiction.
  - exists Proceed, 0%Q. unfold tracker.step. cbn [pc].
    destruct (stop_requested _); eauto.
  - exists DialErr, 0%Q. unfold tracker.step. cbn [pc]. eauto.
  - exists WriteErr, 0%Q. unfold tracker.step. cbn [pc]. eauto.
  - exists ReadErr, 0%Q. unfold tracker.step. cbn [pc]. eauto.
  - exists FiresTimer, 0%Q. unfold tracker.step. cbn [pc]. eauto.
Qed.


(** Once a stop has been requested, [Run] can return, in as many steps
    as [steps_left] says or fewer. *)
Lemma reaches_return (w : World) :
  stop_requested w = true →
  ∃ evs w' tr, exec w evs = Some (w', tr) ∧ pc w' = Returned ∧
               (List.length evs ≤ steps_left (pc w))%nat.
Proof.
  remember (steps_left (pc w)) as k eqn:Hk. revert w Hk.
  induction k as [k IH] using lt_wf_ind. intros w Hk Hs.
  assert (Hdec : pc w = Returned ∨ pc w ≠ Returned)
    by (destruct (pc w); first [left; reflexivity|right; discriminate]).
  destruct Hdec as [Hr|Hr].
  - exists [], w, []. split; [reflexivity|]. split; [exact Hr|cbn; lia].
  - destruct (can_progress w Hr) as (rp & r & w1 & acts & Hpr & Hst).
    assert (Ho : occur (EvRun rp r) w = Some (w1, List.map Did acts)).
    { cbn [tracker.occur]. now rewrite Hst. }
    destruct (occur_after_stop _ _ _ _ Hs Ho) as (Hs1 & Hp1 & _).
    rewrite Hpr in Hp1.
    assert (Hlt : (steps_left (pc w1) < k)%nat) by lia.
    destruct (IH _ Hlt w1 eq_refl Hs1) as (evs & w' & tr & He & Hpc & Hlen).
    exists (EvRun rp r :: evs), w', (List.map Did acts ++ tr).
    split; [|split; [exact Hpc|cbn [List.length]; lia]].
    cbn [tracker.exec]. rewrite Ho, He. reflexivity.
Qed.

Lemma exec_app (evs1 evs2 : list event) (w w1 w2 : World) (t1 t2 : list item) :
  exec w evs1 = Some (w1, t1) → exec w1 evs2 = Some (w2, t2) →
  exec w (evs1 ++ evs2) = Some (w2, t1 ++ t2).
Proof.
  revert w t1. induction evs1 as [|ev evs1 IH]; intros w t1 H1 H2.
  - injection H1 as <- <-. exact H2.
  - cbn [tracker.exec app] in *.
    destruct (occur ev w) as [[wa ta]|]; [|discriminate].
    destruct (exec wa evs1) as [[wb tb]|] eqn:E; [|discriminate].
    injection H1 as <- <-.
    rewrite (IH _ _ E H2). now rewrite app_assoc.
Qed.

Lemma exec_one_failure (r : Q) (s : Subscriber) (b : util.Backoff) (hook : bool) :
  stopCh s = ChanOpen →
  exec (mkWorld s false b AtTop hook)
    [EvRun Proceed 0%Q; EvRun DialErr r; EvRun FiresTimer 0%Q] =
    Some (mkWorld s false (util.Next b r).2 AtTop hook, [Did ActDial]).
Proof.
  intros Hs. cbn [tracker.exec tracker.occur].
  assert (E1 : step (mkWorld s false b AtTop hook) Proceed 0%Q =
               Some (mkWorld s false b AtDial hook, [])).
  { unfold tracker.step, stop_requested. cbn. rewrite Hs. reflexivity. }
  rewrite E1. cbn [List.map].
  assert (E2 : step (mkWorld s false b AtDial hook) DialErr r =
               Some (mkWorld s false (util.Next b r).2
                       (AtWait (util.Next b r).1) hook, [ActDial])).
  { reflexivity. }
  rewrite E2. cbn [List.map].
  assert (E3 : step (mkWorld s false (util.Next b r).2
                       (AtWait (util.Next b r).1) hook) FiresTimer 0%Q =
               Some (mkWorld s false (util.Next b r).2 AtTop hook, [])).
  { reflexivity. }
  rewrite E3. reflexivity.
Qed.

Lemma exec_dial_failures (rs : list Q) (s : Subscriber) (b : util.Backoff)
    (hook : bool) :
  stopCh s = ChanOpen →
  exec (mkWorld s false b AtTop hook) (dial_failures rs) =
    Some (mkWorld s false (util.run_ops (List.map util.OpNext rs) b) AtTop hook,
          List.repeat (Did ActDial) (List.length rs)).
Proof.
  intros Hs. revert b. induction rs as [|r rs IH]; intros b; [reflexivity|].
  change (dial_failures (r :: rs)) with
    ([EvRun Proceed 0%Q; EvRun DialErr r; EvRun FiresTimer 0%Q]
       ++ dial_failures rs).
  erewrite exec_app; [|apply exec_one_failure; exact Hs|apply IH].
  reflexivity.
Qed.

(** C5. A successful dial sets [open] and resets the Backoff in the same
    step, before the subscribe request is written; so after any number of
    failed dials followed by a successful one, [Run] stands before the
    subscribe with the connection marked open and the attempt counter at
    zero. *)
Theorem connect_resets_backoff
    (wss commitment addr : string) (hook : bool) (rs : list Q) (r : Q) :
  let w0 := start (NewSubscriber wss commitment addr) hook in
  (∀ s c b h,
     step (mkWorld s c b AtDial h) DialOk r =
       Some (mkWorld (set_open true s) c (util.Reset b) AtSubscribe h,
             [ActDial])) ∧
  ∃ w1 w2,
    exec w0 (dial_failures rs) =
      Some (w1, List.repeat (Did ActDial) (List.length rs)) ∧
    bo w1 = util.run_ops (List.map util.OpNext rs) (bo w0) ∧
    exec w0 (dial_failures rs ++ [EvRun Proceed r; EvRun DialOk r]) =
      Some (w2, List.repeat (Did ActDial) (List.length rs) ++ [Did ActDial]) ∧
    pc w2 = AtSubscribe ∧ open (sub w2) = true ∧
    util.attempt (bo w2) = 0 ∧ bo w2 = util.Reset (bo w1).
Proof.
  cbv zeta. split; [reflexivity|].
  unfold start.
  pose proof (exec_dial_failures rs (NewSubscriber wss commitment addr)
    (util.NewBackoff (1 * util.Second) (30 * util.Second) 2.0%Q 0.2%Q)
    hook eq_refl) as E.
  eexists _, _. split; [exact E|]. split; [reflexivity|].
  split.
  { eapply exec_app; [exact E|]. reflexivity. }
  repeat split.
Qed.

(** C8. A message that [json.Unmarshal] rejects is not a notification,
    and reading it changes nothing: [Run] stays in its read loop on the
    same connection, with [open] and the Backoff as they were, and does
    nothing that could be seen -- no notification, no close, no dial.  The
    same is true of every message that [isNotif] turns down. *)
Theorem malformed_message_discarded (raw : string) (w : World) (r : Q) :
  Unmarshal raw = None → pc w = AtRead →
  isNotif Unmarshal raw = false ∧
  step w (ReadMsg raw) r = Some (w, []) ∧
  (∀ evs, exec w (EvRun (ReadMsg raw) r :: evs) = exec w evs) ∧
  (∀ raw', isNotif Unmarshal raw' = false →
           step w (ReadMsg raw') r = Some (w, [])).
Proof.
  intros HU Hpc.
  assert (Hn : isNotif Unmarshal raw = false) by (unfold isNotif; now rewrite HU).
  assert (Hstep : ∀ raw', isNotif Unmarshal raw' = false →
                          step w (ReadMsg raw') r = Some (w, [])).
  { intros raw' H'. unfold tracker.step. rewrite Hpc, H'. reflexivity. }
  split; [exact Hn|]. split; [now apply Hstep|]. split; [|exact Hstep].
  intros evs. cbn [tracker.exec tracker.occur]. rewrite (Hstep raw Hn).
  cbn [List.map]. destruct (exec w evs) as [[w2 t2]|]; reflexivity.
Qed.


End RunFacts.

Lemma malformed_message_discarded_witness :
  let w := mkWorld (set_open true sampleSubscriber) false
             (util.NewBackoff (1 * util.Second) (30 * util.Second) 2.0%Q 0.2%Q)
             AtRead true in
  rejectAll "not json" = None ∧ pc w = AtRead ∧
  isNotif rejectAll "not json" = false ∧
  step rejectAll w (ReadMsg "not json") 0%Q = Some (w, []).
Proof.
  cbv zeta. split; [reflexivity|]. split; [reflexivity|].
  destruct (malformed_message_discarded rejectAll "not json"
    (mkWorld (set_open true sampleSubscriber) false
       (util.NewBackoff (1 * util.Second) (30 * util.Second) 2.0%Q 0.2%Q)
       AtRead true) 0%Q eq_refl eq_refl) as (H1 & H2 & _).
  split; [exact H1|exact H2].
Defined.



End tracker_facts.

(* ================================================================== *)
(** ** More about the Backoff *)
(* ================================================================== *)

Module backoff_more.
Import util backoff_facts.

(** The floor: whatever the draw, the delay is at least the minimum. *)
Lemma Next_lower (b : Backoff) (r : Q) : wf b → min b <= (Next b r).1.
Proof.
  intros [Hm HM Hf [Hj0 Hj1]]. rewrite Next_fst by exact Hj0.
  apply trunc_ge; [lia|apply Q.le_max_l].
Qed.

Lemma raw_first (b : Backoff) :
  wf b → attempt b <= 0 → (raw b == to_float (min b))%Q.
Proof.
  intros [Hm HM Hf Hj] Ha. rewrite raw_Qmin, pow_neg by exact Ha.
  pose proof (to_float_le _ _ HM). rewrite Q.min_l; [ring|lra].
Qed.

(** The first delay after a reset is at most the minimum scaled by
    1 + jitter. *)
Lemma Next_first (b : Backoff) (r : Q) :
  wf b → attempt b = 0 → is_draw r →
  (to_float (Next b r).1 <= to_float (min b) * (1 + jitter b))%Q.
Proof.
  intros Hwf Ha [Hr0 Hr1]. pose proof Hwf as [Hm HM Hf [Hj0 Hj1]].
  pose proof (to_float_pos _ Hm) as Hm'.
  destruct (jitter_of_range b r Hj0 Hr0 Hr1) as [Hu1 Hu2].
  assert (Hraw := raw_first b Hwf ltac:(lia)).
  rewrite Next_fst by exact Hj0.
  set (x := Qmax (to_float (min b)) (raw b * (1 + jitter_of b r))%Q).
  assert (Hx : (x <= to_float (min b) * (1 + jitter b))%Q).
  { unfold x. apply Q.max_lub; [nra|]. rewrite Hraw. nra. }
  apply Qle_trans with x; [|exact Hx].
  apply trunc_le. apply Qle_trans with (to_float (min b)); [lra|apply Q.le_max_l].
Qed.


Lemma Qpower_base_mono (p q : Q) (n : Z) :
  (0 < p)%Q → (p <= q)%Q → 0 <= n → (p ^ n <= q ^ n)%Q.
Proof.
  intros Hp Hpq Hn.
  assert (Hq : (q == p * (q / p))%Q) by (field; lra).
  rewrite Hq at 1. rewrite Qmult_power.
  assert (H1 : (1 <= (q / p) ^ n)%Q).
  { apply Qpower_1_le; [|exact Hn]. apply Qle_shift_div_l; lra. }
  assert (H0 : (0 < p ^ n)%Q) by now apply Qpower_0_lt.
  nra.
Qed.

Lemma growth_459 : (inject_Z (2 ^ 63) <= 1.1 ^ 459)%Q.
Proof. vm_compute. discriminate. Qed.



(** X10. [Next] changes nothing but the attempt counter, so after any
    use of a Backoff, [Reset] brings back exactly the state the
    constructor made. *)
Theorem Reset_restores_fresh
    (min0 max0 : Duration) (factor0 jitter0 : float64) (ops : list op) :
  Reset (run_ops ops (NewBackoff min0 max0 factor0 jitter0))
  = NewBackoff min0 max0 factor0 jitter0.
Proof.
  set (b := NewBackoff min0 max0 factor0 jitter0).
  destruct (run_ops_fields ops b) as (H1 & H2 & H3 & H4).
  unfold Reset. rewrite H1, H2, H3, H4. reflexivity.
Qed.

End backoff_more.

(* ================================================================== *)
(** ** More about [Run] *)
(* ================================================================== *)

Module tracker_more.
Import tracker tracker_obs tracker_facts.

Section RunMore.

Variable Unmarshal : string → option (gmap string any).

#[local] Abbreviation step := (tracker.step Unmarshal).
#[local] Abbreviation occur := (tracker.occur Unmarshal).
#[local] Abbreviation exec := (tracker.exec Unmarshal).

(** Induction over a run, event by event from its start. *)
Lemma exec_invariant (Q : event → Prop) (P : World → Prop) :
  (∀ ev w w' t, Q ev → P w → occur ev w = Some (w', t) → P w') →
  ∀ evs w w' t, Forall Q evs → P w → exec w evs = Some (w', t) → P w'.
Proof.
  intros Hstep evs. induction evs as [|ev evs IH]; intros w w' t HQ Hw H.
  - injection H as <- <-. exact Hw.
  - cbn [tracker.exec] in H. apply Forall_cons in HQ as [Hq HQ].
    destruct (occur ev w) as [[w1 t1]|] eqn:E1; [|discriminate].
    destruct (exec w1 evs) as [[w2 t2]|] eqn:E2; [|discriminate].
    injection H as <- <-. eapply IH; [exact HQ| |exact E2]. eapply Hstep; eauto.
Qed.

Lemma Forall_any (evs : list event) : Forall (λ _, True) evs.
Proof. induction evs; constructor; auto. Qed.

(** A step of [Run], read backwards: the world it leads to. *)
Lemma step_exact (w w' : World) (rp : reply) (r : Q) (acts : list action) :
  step w rp r = Some (w', acts) →
  match pc w, rp with
  | AtTop, Proceed =>
      w' = goto (if stop_requested w then Returned else AtDial) w ∧ acts = []
  | AtDial, DialErr => w' = backoff_wait r w ∧ acts = [ActDial]
  | AtDial, DialOk =>
      w' = goto AtSubscribe (with_bo (util.Reset (bo w)) (store_open true w)) ∧
      acts = [ActDial]
  | AtSubscribe, WriteErr =>
      w' = backoff_wait r (store_open false w) ∧
      acts = [ActSubscribe; ActCloseConn]
  | AtSubscribe, WriteOk => w' = goto AtRead w ∧ acts = [ActSubscribe]
  | AtRead, ReadMsg raw =>
      w' = w ∧
      acts = (if isNotif Unmarshal raw
              then if ActivityNotify w then [ActNotify (link (sub w))] else []
              else [])
  | AtRead, ReadErr =>
      w' = backoff_wait r (store_open false w) ∧ acts = [ActCloseConn]
  | AtWait _, FiresCtx => ctxDone w = true ∧ w' = goto Returned w ∧ acts = []
  | AtWait _, FiresStop =>
      ready (stopCh (sub w)) = true ∧ w' = goto Returned w ∧ acts = []
  | AtWait _, FiresTimer => w' = goto AtTop w ∧ acts = []
  | _, _ => False
  end.
Proof.
  unfold tracker.step. destruct (pc w), rp; try discriminate; intros H.
  - destruct (stop_requested w); injection H as <- <-; split; reflexivity.
  - injection H as <- <-; split; reflexivity.
  - injection H as <- <-; split; reflexivity.
  - injection H as <- <-; split; reflexivity.
  - injection H as <- <-; split; reflexivity.
  - destruct (isNotif Unmarshal raw); injection H as <- <-; split; reflexivity.
  - injection H as <- <-; split; reflexivity.
  - destruct (ctxDone w); [|discriminate]. injection H as <- <-. repeat split.
  - destruct (ready (stopCh (sub w))); [|discriminate].
    injection H as <- <-. repeat split.
  - injection H as <- <-; split; reflexivity.
Qed.

Lemma keeps_wf (w : World) : run_keeps w → util.wf (bo w).
Proof.
  intros [Hm HM Hf Hj _ _ _].
  split; rewrite ?Hm, ?HM, ?Hf, ?Hj;
    first [reflexivity | discriminate | split; discriminate].
Qed.

Lemma keeps_start (s : Subscriber) (hook : bool) :
  open s = false → run_keeps (start s hook).
Proof.
  intros Ho. split; try reflexivity; cbn; first [exact Ho | discriminate].
Qed.

Lemma occur_keeps (ev : event) (w w' : World) (t : list item) :
  run_keeps w → occur ev w = Some (w', t) → run_keeps w'.
Proof.
  intros Hk H. pose proof (keeps_wf w Hk) as Hwf.
  destruct ev as [rp r| |]; cbn [tracker.occur] in H.
  - destruct (step w rp r) as [[w1 acts]|] eqn:E; [|discriminate].
    injection H as <- <-. apply step_exact in E.
    destruct Hk as [Hm HM Hf Hj Ho Ha Hw].
    destruct w as [s c b p hook]. cbn [pc bo sub] in *.
    assert (Hlow : ∀ d, AtWait (util.Next b r).1 = AtWait d → 1 * util.Second <= d).
    { intros d [= <-]. rewrite <- Hm. now apply backoff_more.Next_lower. }
    destruct p, rp; try contradiction;
      try (destruct E as (_ & -> & _)); try (destruct E as [-> _]);
      unfold backoff_wait, stop_requested; cbn;
      try (destruct (c || ready (stopCh s)));
      split; cbn in *;
      first [assumption | reflexivity | discriminate
            | (intros; first [assumption | discriminate | now apply Ha])].
  - unfold Stop in H. destruct (stopOnce (sub w)).
    + injection H as <- <-. destruct Hk. split; assumption.
    + destruct (stopCh (sub w)); cbn in H; [|discriminate].
      injection H as <- <-. destruct Hk. split; assumption.
  - injection H as <- <-. destruct Hk. split; assumption.
Qed.

Lemma exec_keeps (evs : list event) (s : Subscriber) (hook : bool)
    (w : World) (t : list item) :
  open s = false → exec (start s hook) evs = Some (w, t) → run_keeps w.
Proof.
  intros Ho H.
  eapply (exec_invariant (λ _, True) run_keeps); eauto using Forall_any.
  - intros ev w1 w2 t1 _. apply occur_keeps.
  - now apply keeps_start.
Qed.

Lemma backoff_wait_pc (r : Q) (w : World) :
  pc (backoff_wait r w) = AtWait (util.Next (bo w) r).1.
Proof. unfold backoff_wait. now destruct (util.Next (bo w) r). Qed.

Lemma backoff_wait_sub (r : Q) (w : World) : sub (backoff_wait r w) = sub w.
Proof. unfold backoff_wait. now destruct (util.Next (bo w) r). Qed.

Lemma occur_short (ev : event) (w w' : World) (t : list item) :
  match ev with EvRun _ r => util.is_draw r | _ => True end →
  run_keeps w ∧ waits_short w → occur ev w = Some (w', t) →
  run_keeps w' ∧ waits_short w'.
Proof.
  intros Hr [Hk Hs] H. split; [eapply occur_keeps; eauto|].
  pose proof (keeps_wf w Hk) as Hwf.
  destruct ev as [rp r| |]; cbn [tracker.occur] in H.
  - destruct (step w rp r) as [[w1 acts]|] eqn:E; [|discriminate].
    injection H as <- <-. apply step_exact in E.
    destruct Hk as [Hm HM Hf Hj Ho Ha Hw].
    destruct w as [s c b p hook]. cbn [pc bo sub] in *.
    assert (Hup : ∀ d, AtWait (util.Next b r).1 = AtWait d → d <= 36 * util.Second).
    { intros d [= <-]. destruct Hr as [Hr0 Hr1].
      destruct (backoff_facts.Next_bounds b r Hwf Hr0 Hr1) as [_ Hu].
      rewrite HM, Hj in Hu. unfold util.to_float in Hu.
      rewrite Zle_Qle. eapply Qle_trans; [exact Hu|].
      vm_compute. discriminate. }
    unfold waits_short in *. cbn [pc] in *.
    destruct p, rp; try contradiction;
      try (destruct E as (_ & -> & _)); try (destruct E as [-> _]);
      unfold backoff_wait, stop_requested; cbn;
      try (destruct (c || ready (stopCh s))); cbn;
      first [assumption | discriminate].
  - unfold Stop in H. unfold waits_short in *. destruct (stopOnce (sub w)).
    + injection H as <- <-. exact Hs.
    + destruct (stopCh (sub w)); cbn in H; [|discriminate].
      injection H as <- <-. exact Hs.
  - injection H as <- <-. exact Hs.
Qed.

(** X1. [IsOpen] tells the truth: along any run, the flag is set
    exactly while [Run] holds a connection (after a successful dial and
    until the failed write or read that ends it). *)
Theorem IsOpen_iff_connected
    (wss commitment addr : string) (hook : bool)
    (evs : list event) (w : World) (tr : list item) :
  exec (start (NewSubscriber wss commitment addr) hook) evs = Some (w, tr) →
  (IsOpen (sub w) = true ↔ pc w = AtSubscribe ∨ pc w = AtRead) ∧
  (pc w = Returned → IsOpen (sub w) = false).
Proof.
  intros H. pose proof (exec_keeps evs (NewSubscriber wss commitment addr) hook w tr
                eq_refl H) as [_ _ _ _ Ho _ _].
  unfold IsOpen. rewrite Ho. destruct (pc w); cbn; split;
    first [reflexivity | discriminate | (intros; discriminate)
          | (split; [discriminate|intros [?|?]; discriminate])
          | (split; [intros _; auto | reflexivity])
          | idtac].
Qed.

Lemma exec_short (evs : list event) (s : Subscriber) (hook : bool)
    (w : World) (t : list item) :
  open s = false → draws_ok evs → exec (start s hook) evs = Some (w, t) →
  run_keeps w ∧ waits_short w.
Proof.
  intros Ho Hd H.
  eapply (exec_invariant
            (λ ev, match ev with EvRun _ r => util.is_draw r | _ => True end)
            (λ w, run_keeps w ∧ waits_short w)); [| exact Hd | | exact H].
  - intros ev w1 w2 t1. apply occur_short.
  - split; [now apply keeps_start | intros d Hd'; discriminate].
Qed.

(** X2. Every pause between two connection attempts lasts at least
    one second and at most 36 seconds (the 30 s cap plus 20% jitter),
    whatever failed and however often, as long as each random draw lies in
    [0, 1). *)
Theorem reconnect_wait_bounds
    (wss commitment addr : string) (hook : bool)
    (evs : list event) (w : World) (tr : list item) (d : util.Duration) :
  draws_ok evs →
  exec (start (NewSubscriber wss commitment addr) hook) evs = Some (w, tr) →
  pc w = AtWait d →
  1 * util.Second <= d <= 36 * util.Second.
Proof.
  intros Hd H Hp.
  destruct (exec_short evs (NewSubscriber wss commitment addr) hook w tr
              eq_refl Hd H) as [Hk Hs].
  split; [exact (rk_wait w Hk d Hp) | exact (Hs d Hp)].
Qed.

(** X3. A connection that was established and then lost is retried
    quickly: the backoff was reset when the dial succeeded, so the pause
    after the failed subscribe or read is the first delay of the series,
    between 1 s and 1.2 s. *)
Theorem lost_connection_retries_soon
    (wss commitment addr : string) (hook : bool)
    (evs : list event) (w w' : World) (tr : list item)
    (rp : reply) (r : Q) (acts : list action) :
  exec (start (NewSubscriber wss commitment addr) hook) evs = Some (w, tr) →
  IsOpen (sub w) = true →
  util.is_draw r →
  step w rp r = Some (w', acts) →
  pc w' = AtRead ∨
  ∃ d, pc w' = AtWait d ∧ In ActCloseConn acts ∧ IsOpen (sub w') = false ∧
       1 * util.Second <= d ∧ 10 * d <= 12 * util.Second.
Proof.
  intros H Hopen Hr Hs.
  pose proof (exec_keeps evs (NewSubscriber wss commitment addr) hook w tr
                eq_refl H) as Hk.
  pose proof (keeps_wf w Hk) as Hwf.
  pose proof Hk as [Hm HM Hf Hj Ho Ha Hw].
  unfold IsOpen in Hopen. rewrite Ho in Hopen. specialize (Ha Hopen).
  assert (Hd : 1 * util.Second <= (util.Next (bo w) r).1 ∧
               10 * (util.Next (bo w) r).1 <= 12 * util.Second).
  { split.
    - rewrite <- Hm. now apply backoff_more.Next_lower.
    - pose proof (backoff_more.Next_first (bo w) r Hwf Ha Hr) as Hu.
      rewrite Hm, Hj in Hu. unfold util.to_float in Hu.
      assert (Hz : (util.Next (bo w) r).1 <= 1200000000).
      { rewrite Zle_Qle. eapply Qle_trans; [exact Hu|].
        vm_compute. discriminate. }
      unfold util.Second. lia. }
  apply step_exact in Hs.
  destruct (pc w) eqn:Hp, rp; try contradiction; try discriminate.
  - left. destruct Hs as [-> ->]. reflexivity.
  - right. destruct Hs as [-> ->]. exists (util.Next (bo w) r).1.
    rewrite backoff_wait_pc, backoff_wait_sub.
    split; [reflexivity|]. split; [cbn; tauto|]. split; [reflexivity|exact Hd].
  - left. destruct Hs as [-> ->]. exact Hp.
  - right. destruct Hs as [-> ->]. exists (util.Next (bo w) r).1.
    rewrite backoff_wait_pc, backoff_wait_sub.
    split; [reflexivity|]. split; [cbn; tauto|]. split; [reflexivity|exact Hd].
Qed.

Lemma link_addr (s s' : Subscriber) : addr s' = addr s → link s' = link s.
Proof. unfold link, shortAddr. intros ->. reflexivity. Qed.

Lemma notified_app (t1 t2 : list item) :
  notified (t1 ++ t2) = notified t1 ++ notified t2.
Proof.
  induction t1 as [|[[| |text|]| |] t1 IH]; cbn; rewrite ?IH; reflexivity.
Qed.

Lemma conn_closes_app (t1 t2 : list item) :
  conn_closes (t1 ++ t2) = (conn_closes t1 + conn_closes t2)%nat.
Proof.
  induction t1 as [|[[| |text|]| |] t1 IH]; cbn; rewrite ?IH; reflexivity.
Qed.

(** What one event leaves alone: the address, the endpoint, the commitment
    and the notification hook. *)
Lemma occur_fixed (ev : event) (w w' : World) (t : list item) :
  occur ev w = Some (w', t) →
  addr (sub w') = addr (sub w) ∧ wss (sub w') = wss (sub w) ∧
  commitment (sub w') = commitment (sub w) ∧
  ActivityNotify w' = ActivityNotify w.
Proof.
  intros H. destruct ev as [rp r| |]; cbn [tracker.occur] in H.
  - destruct (step w rp r) as [[w1 acts]|] eqn:E; [|discriminate].
    injection H as <- <-. apply step_exact in E.
    destruct w as [s c b p hook]. cbn [pc bo sub] in *.
    destruct p, rp; try contradiction;
      try (destruct E as (_ & -> & _)); try (destruct E as [-> _]);
      unfold backoff_wait; cbn; try (destruct (stop_requested _)); cbn;
      repeat split; reflexivity.
  - unfold Stop in H. destruct (stopOnce (sub w)).
    + injection H as <- <-. repeat split; reflexivity.
    + destruct (stopCh (sub w)); cbn in H; [|discriminate].
      injection H as <- <-. repeat split; reflexivity.
  - injection H as <- <-. repeat split; reflexivity.
Qed.

Lemma occur_notified (ev : event) (w w' : World) (t : list item) :
  occur ev w = Some (w', t) →
  notified t =
  repeat (link (sub w))
    (if ActivityNotify w then accepted Unmarshal [ev] else 0%nat).
Proof.
  intros H. destruct ev as [rp r| |]; cbn [tracker.occur] in H.
  - destruct (step w rp r) as [[w1 acts]|] eqn:E; [|discriminate].
    injection H as <- <-. apply step_exact in E.
    destruct w as [s c b p hook]. cbn [pc bo sub ActivityNotify] in *.
    destruct p, rp; try contradiction;
      try (destruct E as (_ & _ & ->)); try (destruct E as [_ ->]);
      cbn; try (destruct (isNotif Unmarshal raw)); destruct hook; reflexivity.
  - unfold Stop in H. destruct (stopOnce (sub w)).
    + injection H as <- <-. now destruct (ActivityNotify w).
    + destruct (stopCh (sub w)); cbn in H; [|discriminate].
      injection H as <- <-. now destruct (ActivityNotify w).
  - injection H as <- <-. now destruct (ActivityNotify w).
Qed.

Lemma exec_notified (evs : list event) (w w' : World) (t : list item) :
  exec w evs = Some (w', t) →
  notified t =
  repeat (link (sub w))
    (if ActivityNotify w then accepted Unmarshal evs else 0%nat).
Proof.
  revert w w' t. induction evs as [|ev evs IH]; intros w w' t H.
  - injection H as <- <-. now destruct (ActivityNotify w).
  - cbn [tracker.exec] in H.
    destruct (occur ev w) as [[w1 t1]|] eqn:E1; [|discriminate].
    destruct (exec w1 evs) as [[w2 t2]|] eqn:E2; [|discriminate].
    injection H as <- <-. rewrite notified_app.
    rewrite (occur_notified _ _ _ _ E1), (IH _ _ _ E2).
    destruct (occur_fixed _ _ _ _ E1) as (Ha & _ & _ & Hh).
    rewrite (link_addr _ _ Ha), Hh.
    destruct (ActivityNotify w); [|reflexivity].
    rewrite <- repeat_app. f_equal.
    destruct ev as [[]| |]; cbn; try reflexivity.
    now destruct (isNotif Unmarshal raw).
Qed.

(** X5. With a hook installed, [Run] calls it exactly once for each
    message it classified as an account notification, always with the
    same text (the wallet's short address and its Solscan link); without
    a hook it never notifies. *)
Theorem notifications_match_accepted
    (wss commitment addr : string) (hook : bool)
    (evs : list event) (w : World) (tr : list item) :
  exec (start (NewSubscriber wss commitment addr) hook) evs = Some (w, tr) →
  notified tr =
  repeat (link (NewSubscriber wss commitment addr))
    (if hook then accepted Unmarshal evs else 0%nat).
Proof. intros H. exact (exec_notified _ _ _ _ H). Qed.

Lemma occur_balance (ev : event) (w w' : World) (t : list item) :
  occur ev w = Some (w', t) →
  (dial_oks [ev] + one (connected (pc w)) =
   conn_closes t + one (connected (pc w')))%nat.
Proof.
  intros H. destruct ev as [rp r| |]; cbn [tracker.occur] in H.
  - destruct (step w rp r) as [[w1 acts]|] eqn:E; [|discriminate].
    injection H as <- <-. apply step_exact in E.
    destruct w as [s c b p hook]. cbn [pc bo sub ActivityNotify] in *.
    destruct p, rp; try contradiction;
      try (destruct E as (_ & -> & ->)); try (destruct E as [-> ->]);
      unfold backoff_wait; cbn; try (destruct (stop_requested _)); cbn;
      try (destruct (isNotif Unmarshal raw)); try destruct hook; reflexivity.
  - unfold Stop in H. destruct (stopOnce (sub w)).
    + injection H as <- <-. cbn. lia.
    + destruct (stopCh (sub w)); cbn in H; [|discriminate].
      injection H as <- <-. cbn. lia.
  - injection H as <- <-. cbn. lia.
Qed.

Lemma exec_balance (evs : list event) (w w' : World) (t : list item) :
  exec w evs = Some (w', t) →
  (dial_oks evs + one (connected (pc w)) =
   conn_closes t + one (connected (pc w')))%nat.
Proof.
  revert w w' t. induction evs as [|ev evs IH]; intros w w' t H.
  - injection H as <- <-. reflexivity.
  - cbn [tracker.exec] in H.
    destruct (occur ev w) as [[w1 t1]|] eqn:E1; [|discriminate].
    destruct (exec w1 evs) as [[w2 t2]|] eqn:E2; [|discriminate].
    injection H as <- <-. rewrite conn_closes_app.
    pose proof (occur_balance _ _ _ _ E1) as H1.
    pose proof (IH _ _ _ E2) as H2.
    assert (Hc : dial_oks (ev :: evs) = (dial_oks [ev] + dial_oks evs)%nat)
      by (destruct ev as [[]| |]; cbn; lia).
    lia.
Qed.


Lemma occur_flags (ev : event) (w w' : World) (t : list item) :
  stop_flags (sub w) → occur ev w = Some (w', t) →
  stop_flags (sub w') ∧ stopOnce (sub w') = stopOnce (sub w) || is_stop ev.
Proof.
  intros [Hf1 Hf2] H. destruct ev as [rp r| |]; cbn [tracker.occur] in H.
  - destruct (step w rp r) as [[w1 acts]|] eqn:E; [|discriminate].
    injection H as <- <-. apply step_exact in E.
    destruct w as [s c b p hook]. cbn [pc bo sub ActivityNotify] in *.
    unfold stop_flags.
    destruct p, rp; try contradiction;
      try (destruct E as (_ & -> & _)); try (destruct E as [-> _]);
      unfold backoff_wait; cbn; try (destruct (stop_requested _)); cbn;
      rewrite orb_false_r; auto.
  - unfold Stop in H. destruct (stopOnce (sub w)) eqn:Eo.
    + injection H as <- <-. unfold stop_flags. cbn. rewrite ?Eo. auto.
    + destruct (stopCh (sub w)) eqn:Ec; cbn in H; [|discriminate].
      injection H as <- <-. cbn. repeat split; reflexivity.
  - injection H as <- <-. cbn. rewrite orb_false_r. repeat split; auto.
Qed.

Lemma exec_flags (evs : list event) (w w' : World) (t : list item) :
  stop_flags (sub w) → exec w evs = Some (w', t) →
  stop_flags (sub w') ∧
  stopOnce (sub w') = stopOnce (sub w) || existsb is_stop evs.
Proof.
  revert w w' t. induction evs as [|ev evs IH]; intros w w' t Hf H.
  - injection H as <- <-. rewrite orb_false_r. auto.
  - cbn [tracker.exec] in H.
    destruct (occur ev w) as [[w1 t1]|] eqn:E1; [|discriminate].
    destruct (exec w1 evs) as [[w2 t2]|] eqn:E2; [|discriminate].
    injection H as <- <-.
    destruct (occur_flags _ _ _ _ Hf E1) as [Hf1 H1].
    destruct (IH _ _ _ Hf1 E2) as [Hf2 H2].
    split; [exact Hf2|]. rewrite H2, H1. cbn [existsb].
    now rewrite orb_assoc.
Qed.

Lemma exec_fixed (evs : list event) (w w' : World) (t : list item) :
  exec w evs = Some (w', t) →
  addr (sub w') = addr (sub w) ∧ wss (sub w') = wss (sub w) ∧
  commitment (sub w') = commitment (sub w).
Proof.
  revert w w' t. induction evs as [|ev evs IH]; intros w w' t H.
  - injection H as <- <-. auto.
  - cbn [tracker.exec] in H.
    destruct (occur ev w) as [[w1 t1]|] eqn:E1; [|discriminate].
    destruct (exec w1 evs) as [[w2 t2]|] eqn:E2; [|discriminate].
    injection H as <- <-.
    destruct (occur_fixed _ _ _ _ E1) as (A1 & A2 & A3 & _).
    destruct (IH _ _ _ E2) as (B1 & B2 & B3).
    rewrite B1, B2, B3. auto.
Qed.

(** X7. [ShouldBeOpen] is true from construction until the first
    [Stop] and false ever after: nothing [Run] does (dialling, failing,
    backing off, returning) changes it, and the address, the endpoint and
    the commitment stay the trimmed strings the constructor stored. *)
Theorem ShouldBeOpen_until_Stop
    (wss commitment addr : string) (hook : bool)
    (evs : list event) (w : World) (tr : list item) :
  exec (start (NewSubscriber wss commitment addr) hook) evs = Some (w, tr) →
  ShouldBeOpen (sub w) = negb (existsb is_stop evs) ∧
  ready (stopCh (sub w)) = existsb is_stop evs ∧
  tracker.addr (sub w) = gostrings.TrimSpace addr ∧
  tracker.wss (sub w) = gostrings.TrimSpace wss ∧
  tracker.commitment (sub w) = gostrings.TrimSpace commitment.
Proof.
  intros H.
  assert (Hf : stop_flags (sub (start (NewSubscriber wss commitment addr) hook)))
    by (split; reflexivity).
  destruct (exec_flags _ _ _ _ Hf H) as [[Hf1 Hf2] Ho]. cbn in Ho.
  destruct (exec_fixed _ _ _ _ H) as (A1 & A2 & A3).
  cbn in A1, A2, A3.
  unfold ShouldBeOpen. rewrite Hf2, Hf1, Ho.
  repeat split; first [exact A1 | exact A2 | exact A3 | reflexivity].
Qed.

Lemma exec_failure_wait (r : Q) (s : Subscriber) (b : util.Backoff) (hook : bool) :
  stopCh s = ChanOpen →
  exec (mkWorld s false b AtTop hook) [EvRun Proceed 0%Q; EvRun DialErr r] =
    Some (mkWorld s false (util.Next b r).2 (AtWait (util.Next b r).1) hook,
          [Did ActDial]).
Proof.
  intros Hs. cbn [tracker.exec tracker.occur].
  assert (E1 : step (mkWorld s false b AtTop hook) Proceed 0%Q =
               Some (mkWorld s false b AtDial hook, [])).
  { unfold tracker.step, stop_requested. cbn. rewrite Hs. reflexivity. }
  rewrite E1. cbn [List.map].
  assert (E2 : step (mkWorld s false b AtDial hook) DialErr r =
               Some (mkWorld s false (util.Next b r).2
                       (AtWait (util.Next b r).1) hook, [ActDial])).
  { reflexivity. }
  rewrite E2. reflexivity.
Qed.

(** The exponential step of [Run]'s Backoff after [n] failures, in
    seconds: 1, 2, 4, 8, 16 and then 30. *)
Lemma raw_seconds (b : util.Backoff) :
  util.min b = 1 * util.Second → util.max b = 30 * util.Second →
  util.factor b = 2.0%Q → 0 <= util.attempt b →
  (util.raw b ==
   inject_Z (Z.min (2 ^ util.attempt b) 30 * util.Second))%Q.
Proof.
  intros Hm HM Hf Hn. rewrite backoff_facts.raw_power by exact Hn.
  rewrite Hm, HM, Hf. unfold util.to_float.
  assert (H2 : (2.0 ^ util.attempt b == inject_Z (2 ^ util.attempt b))%Q).
  { rewrite Zpower_Qpower by exact Hn.
    assert (E : (2.0 == inject_Z 2)%Q) by reflexivity. now rewrite E. }
  rewrite H2, <- inject_Z_mult.
  destruct (Z.le_gt_cases (2 ^ util.attempt b) 30) as [Hle|Hgt].
  - rewrite Z.min_l by exact Hle. rewrite Q.min_l.
    + apply inject_Z_injective. unfold util.Second. lia.
    + rewrite <- Zle_Qle. unfold util.Second. lia.
  - rewrite Z.min_r by lia. rewrite Q.min_r; [reflexivity|].
    rewrite <- Zle_Qle. unfold util.Second. lia.
Qed.

(** X4. The pauses of [Run] grow as an exponential backoff should:
    after [n] failed dials in a row, the next failed dial is followed by
    a pause within 20% of [min (2^n, 30)] seconds. *)
Theorem waits_double
    (wss commitment addr : string) (hook : bool) (rs : list Q) (r : Q) :
  Forall util.is_draw rs → util.is_draw r →
  Z.of_nat (List.length rs) < util.max_int →
  let n := Z.of_nat (List.length rs) in
  let base := Z.min (2 ^ n) 30 * util.Second in
  ∃ w tr d,
    exec (start (NewSubscriber wss commitment addr) hook)
      (dial_failures rs ++ [EvRun Proceed 0%Q; EvRun DialErr r])
    = Some (w, tr) ∧
    pc w = AtWait d ∧ 8 * base <= 10 * d ∧ 10 * d <= 12 * base.
Proof.
  intros Hrs Hr Hlen n base.
  set (s := NewSubscriber wss commitment addr).
  set (b0 := util.NewBackoff (1 * util.Second) (30 * util.Second) 2.0%Q 0.2%Q).
  set (bn := util.run_ops (List.map util.OpNext rs) b0).
  pose proof (exec_dial_failures Unmarshal rs s b0 hook eq_refl) as E1.
  pose proof (exec_failure_wait r s bn hook eq_refl) as E2.
  pose proof (exec_app Unmarshal _ _ _ _ _ _ _ E1 E2) as E.
  eexists _, _, (util.Next bn r).1. split; [exact E|]. split; [reflexivity|].
  assert (Hwf : util.wf bn)
    by (apply backoff_facts.run_ops_wf, backoff_facts.NewBackoff_wf).
  destruct (backoff_facts.run_ops_fields (List.map util.OpNext rs) b0)
    as (Hm & HM & Hf & Hj). fold bn in Hm, HM, Hf, Hj.
  change (util.min b0) with (1 * util.Second) in Hm.
  change (util.max b0) with (30 * util.Second) in HM.
  change (util.factor b0) with 2.0%Q in Hf.
  change (util.jitter b0) with 0.2%Q in Hj.
  assert (Ha : util.attempt bn = n).
  { unfold bn. rewrite backoff_facts.attempt_calls.
    - reflexivity.
    - reflexivity.
    - change (util.attempt b0) with 0. lia. }
  assert (Hraw : (util.raw bn == inject_Z base)%Q).
  { rewrite raw_seconds; [now rewrite Ha| assumption..|lia]. }
  destruct Hr as [Hr0 Hr1].
  assert (Hj0 : (0 <= util.jitter bn)%Q) by (rewrite Hj; discriminate).
  destruct (backoff_facts.jitter_of_range bn r Hj0 Hr0 Hr1) as [Hu1 Hu2].
  rewrite Hj in Hu1, Hu2.
  rewrite backoff_facts.Next_fst by exact Hj0.
  set (x := Qmax (util.to_float (util.min bn))
                 (util.raw bn * (1 + util.jitter_of bn r))%Q).
  assert (Hbase : 1 * util.Second <= base).
  { unfold base. pose proof (Z.pow_pos_nonneg 2 n ltac:(lia) ltac:(lia)).
    unfold util.Second. lia. }
  assert (Hb0 : (inject_Z (1 * util.Second) <= inject_Z base)%Q)
    by now rewrite <- Zle_Qle.
  assert (Hpos : (0 <= inject_Z base)%Q).
  { change 0%Q with (inject_Z 0). rewrite <- Zle_Qle.
    unfold util.Second in Hbase. lia. }
  assert (Hx1 : (inject_Z (Z.min (2 ^ n) 30 * 800000000) <= x)%Q).
  { unfold x. apply Qle_trans
      with (util.raw bn * (1 + util.jitter_of bn r))%Q; [|apply Q.le_max_r].
    rewrite Hraw.
    assert (E8 : (inject_Z (Z.min (2 ^ n) 30 * 800000000)
                  == inject_Z base * (8 # 10))%Q).
    { unfold base, util.Second. rewrite !inject_Z_mult.
      assert (E' : (inject_Z 800000000 == inject_Z 1000000000 * (8 # 10))%Q)
        by reflexivity.
      rewrite E'. ring. }
    rewrite E8. nra. }
  assert (Hx0 : (0 <= x)%Q).
  { apply Qle_trans with (inject_Z (Z.min (2 ^ n) 30 * 800000000));
      [|exact Hx1].
    change 0%Q with (inject_Z 0). rewrite <- Zle_Qle.
    pose proof (Z.pow_pos_nonneg 2 n ltac:(lia) ltac:(lia)). lia. }
  assert (Hx2 : (x <= inject_Z base * (12 # 10))%Q).
  { unfold x. apply Q.max_lub.
    - rewrite Hm. unfold util.to_float. nra.
    - rewrite Hraw. nra. }
  split.
  - assert (Hlow : Z.min (2 ^ n) 30 * 800000000 <= util.trunc x).
    { apply backoff_facts.trunc_ge; [|exact Hx1].
      pose proof (Z.pow_pos_nonneg 2 n ltac:(lia) ltac:(lia)). lia. }
    unfold base, util.Second. lia.
  - pose proof (backoff_facts.trunc_le x Hx0) as Hle. unfold util.to_float in Hle.
    assert (H12 : (inject_Z (10 * util.trunc x) <= inject_Z (12 * base))%Q).
    { rewrite !inject_Z_mult.
      assert (E10 : (inject_Z 10 == 10)%Q) by reflexivity.
      assert (E12 : (inject_Z 12 == 12)%Q) by reflexivity.
      rewrite E10, E12. nra. }
    now rewrite <- Zle_Qle in H12.
Qed.

End RunMore.

Lemma waits_double_witness :
  ∃ w tr d,
    exec rejectAll (start sampleSubscriber true)
      (dial_failures [0%Q; (1 # 2); (1 # 4)]
         ++ [EvRun Proceed 0%Q; EvRun DialErr (1 # 2)])
    = Some (w, tr) ∧
    pc w = AtWait d ∧
    8 * (8 * util.Second) <= 10 * d ∧ 10 * d <= 12 * (8 * util.Second).
Proof.
  assert (Hrs : Forall util.is_draw [0%Q; (1 # 2); (1 # 4)]).
  { repeat constructor; discriminate. }
  assert (Hr : util.is_draw (1 # 2)) by (split; [discriminate|reflexivity]).
  exact (waits_double rejectAll _ _ _ true [0%Q; (1 # 2); (1 # 4)] (1 # 2)
           Hrs Hr eq_refl).
Defined.

Lemma IsOpen_iff_connected_witness :
  ∃ w tr,
    exec rejectAll (start sampleSubscriber true)
      [EvRun Proceed 0%Q; EvRun DialOk 0%Q; EvRun WriteOk 0%Q] = Some (w, tr) ∧
    pc w = AtRead ∧ IsOpen (sub w) = true.
Proof.
  destruct (exec rejectAll (start sampleSubscriber true)
              [EvRun Proceed 0%Q; EvRun DialOk 0%Q; EvRun WriteOk 0%Q])
    as [[w tr]|] eqn:E; [|vm_compute in E; discriminate E].
  assert (Hp : pc w = AtRead)
    by (vm_compute in E; injection E as <- _; reflexivity).
  exists w, tr. split; [reflexivity|]. split; [exact Hp|].
  apply (proj1 (IsOpen_iff_connected rejectAll _ _ _ _ _ w tr E)).
  right. exact Hp.
Defined.

Lemma reconnect_wait_bounds_witness :
  ∃ w tr,
    exec rejectAll (start sampleSubscriber true)
      [EvRun Proceed 0%Q; EvRun DialErr (1 # 2)] = Some (w, tr) ∧
    pc w = AtWait 1000000000 ∧
    1 * util.Second <= 1000000000 <= 36 * util.Second.
Proof.
  destruct (exec rejectAll (start sampleSubscriber true)
              [EvRun Proceed 0%Q; EvRun DialErr (1 # 2)])
    as [[w tr]|] eqn:E; [|vm_compute in E; discriminate E].
  assert (Hp : pc w = AtWait 1000000000)
    by (vm_compute in E; injection E as <- _; reflexivity).
  assert (Hd : draws_ok [EvRun Proceed 0%Q; EvRun DialErr (1 # 2)]).
  { repeat constructor; discriminate. }
  exists w, tr. split; [reflexivity|]. split; [exact Hp|].
  exact (reconnect_wait_bounds rejectAll _ _ _ _ _ w tr _ Hd E Hp).
Defined.

Lemma lost_connection_retries_soon_witness :
  ∃ w tr w' acts,
    exec rejectAll (start sampleSubscriber true)
      [EvRun Proceed 0%Q; EvRun DialOk 0%Q; EvRun WriteOk 0%Q] = Some (w, tr) ∧
    step rejectAll w ReadErr (1 # 2) = Some (w', acts) ∧
    (pc w' = AtRead ∨
     ∃ d, pc w' = AtWait d ∧ In ActCloseConn acts ∧ IsOpen (sub w') = false ∧
          1 * util.Second <= d ∧ 10 * d <= 12 * util.Second).
Proof.
  destruct (exec rejectAll (start sampleSubscriber true)
              [EvRun Proceed 0%Q; EvRun DialOk 0%Q; EvRun WriteOk 0%Q])
    as [[w tr]|] eqn:E; [|vm_compute in E; discriminate E].
  assert (Ho : IsOpen (sub w) = true)
    by (vm_compute in E; injection E as <- _; reflexivity).
  destruct (step rejectAll w ReadErr (1 # 2)) as [[w' acts]|] eqn:Es;
    [|vm_compute in E; injection E as <- _; vm_compute in Es; discriminate Es].
  assert (Hr : util.is_draw (1 # 2)) by (split; [discriminate|reflexivity]).
  exists w, tr, w', acts. split; [reflexivity|]. split; [exact Es|].
  exact (lost_connection_retries_soon rejectAll _ _ _ _ _ w w' tr _ _ acts
           E Ho Hr Es).
Defined.

Lemma notifications_match_accepted_witness :
  ∃ w tr,
    exec acceptAll (start sampleSubscriber true)
      [EvRun Proceed 0%Q; EvRun DialOk 0%Q; EvRun WriteOk 0%Q;
       EvRun (ReadMsg "a") 0%Q; EvRun (ReadMsg "b") 0%Q] = Some (w, tr) ∧
    notified tr = [link sampleSubscriber; link sampleSubscriber].
Proof.
  destruct (exec acceptAll (start sampleSubscriber true)
              [EvRun Proceed 0%Q; EvRun DialOk 0%Q; EvRun WriteOk 0%Q;
               EvRun (ReadMsg "a") 0%Q; EvRun (ReadMsg "b") 0%Q])
    as [[w tr]|] eqn:E; [|vm_compute in E; discriminate E].
  exists w, tr. split; [reflexivity|].
  eapply eq_trans;
    [exact (notifications_match_accepted acceptAll _ _ _ _ _ w tr E)
    |vm_compute; reflexivity].
Defined.


Lemma ShouldBeOpen_until_Stop_witness :
  ∃ w tr,
    exec rejectAll (start sampleSubscriber true) [EvRun Proceed 0%Q; EvStop]
    = Some (w, tr) ∧
    ShouldBeOpen (sub w) = false ∧ ready (stopCh (sub w)) = true.
Proof.
  destruct (exec rejectAll (start sampleSubscriber true)
              [EvRun Proceed 0%Q; EvStop])
    as [[w tr]|] eqn:E; [|vm_compute in E; discriminate E].
  exists w, tr. split; [reflexivity|].
  destruct (ShouldBeOpen_until_Stop rejectAll _ _ _ _ _ w tr E)
    as (H1 & H2 & _).
  split; [exact H1|exact H2].
Defined.

End tracker_more.

(* ================================================================== *)
(** ** More about the wallet store *)
(* ================================================================== *)

Module store_more.
Import store store_obs store_facts.

Lemma validate_decodes (addr : string) :
  validateSolanaAddress addr = None → is_address addr.
Proof.
  unfold validateSolanaAddress, is_address.
  destruct (String.eqb addr ""); [discriminate|].
  destruct (gostrings.ContainsAny _ _); [discriminate|].
  destruct (b58Decode addr) as [decoded|]; [|discriminate].
  destruct (Nat.eqb_spec (List.length decoded) 32) as [Hl|Hl]; [|discriminate].
  intros _. eauto.
Qed.

Lemma validate_iff_aux (addr : string) :
  validateSolanaAddress addr = None ↔ is_address addr.
Proof.
  split; [apply validate_decodes|].
  intros (decoded & Hd & Hl). exact (proj1 (validate_ok addr decoded Hd Hl)).
Qed.

(** X11. [validateSolanaAddress] accepts exactly the texts that
    base58-decode to 32 bytes: the separate tests for the empty string and
    for white space reject nothing that the decoder would have accepted. *)
Theorem validate_accepts_32_bytes (addr : string) :
  validateSolanaAddress addr = None ↔ is_address addr.
Proof. apply validate_iff_aux. Qed.

Lemma is_address_trimmed (a : string) :
  is_address a → gostrings.TrimSpace a = a.
Proof. intros (decoded & Hd & Hl). exact (proj2 (validate_ok a decoded Hd Hl)). Qed.

(** What [AddWallet] and [RemoveWallet] do, test by test. *)
Lemma AddWallet_cases (ctx : Context) (now addr : string) (b : Bolt) :
  AddWallet ctx now addr b =
  let a := gostrings.TrimSpace addr in
  match validateSolanaAddress a with
  | Some err => (Some (ErrInvalidAddress err), b)
  | None =>
      if done ctx then (Some ErrContext, b)
      else match b !! walletsBucket with
           | None => (Some ErrBucketMissing, b)
           | Some bkt =>
               (None, match bkt !! a with
                      | Some _ => b
                      | None => <[walletsBucket := <[a := now]> bkt]> b
                      end)
           end
  end.
Proof.
  unfold AddWallet. cbv zeta.
  destruct (validateSolanaAddress _); [reflexivity|].
  destruct (done ctx); [reflexivity|]. unfold Update.
  destruct (b !! walletsBucket) as [bkt|]; [|reflexivity].
  destruct (bkt !! _); reflexivity.
Qed.

Lemma RemoveWallet_cases (ctx : Context) (addr : string) (b : Bolt) :
  RemoveWallet ctx addr b =
  let a := gostrings.TrimSpace addr in
  match validateSolanaAddress a with
  | Some err => (Some (ErrInvalidAddress err), b)
  | None =>
      if done ctx then (Some ErrContext, b)
      else match b !! walletsBucket with
           | None => (Some ErrBucketMissing, b)
           | Some bkt => (None, <[walletsBucket := delete a bkt]> b)
           end
  end.
Proof.
  unfold RemoveWallet. cbv zeta.
  destruct (validateSolanaAddress _); [reflexivity|].
  destruct (done ctx); [reflexivity|]. unfold Update.
  destruct (b !! walletsBucket) as [bkt|]; reflexivity.
Qed.

(** X12. A call that returns an error has changed nothing, and both
    calls succeed under the same three conditions: the trimmed address is
    valid, the context is live and the bucket exists.  An invalid address
    is reported even when the context is already cancelled. *)
Theorem store_calls_fail_cleanly
    (ctx : Context) (now addr : string) (b : Bolt) :
  let ok := validateSolanaAddress (gostrings.TrimSpace addr) = None ∧
            done ctx = false ∧ is_Some (b !! walletsBucket) in
  ((AddWallet ctx now addr b).1 = None ↔ ok) ∧
  ((RemoveWallet ctx addr b).1 = None ↔ ok) ∧
  ((AddWallet ctx now addr b).1 ≠ None → (AddWallet ctx now addr b).2 = b) ∧
  ((RemoveWallet ctx addr b).1 ≠ None → (RemoveWallet ctx addr b).2 = b) ∧
  (∀ err, validateSolanaAddress (gostrings.TrimSpace addr) = Some err →
     (AddWallet ctx now addr b).1 = Some (ErrInvalidAddress err) ∧
     (RemoveWallet ctx addr b).1 = Some (ErrInvalidAddress err)).
Proof.
  cbv zeta. rewrite AddWallet_cases, RemoveWallet_cases. cbv zeta.
  destruct (validateSolanaAddress _) as [e|]; cbn;
    [|destruct (done ctx); cbn;
      [|destruct (b !! walletsBucket) as [bkt|] eqn:Eb; cbn]];
    repeat split; intros;
    repeat match goal with
           | H : _ ∧ _ |- _ => destruct H
           | H : is_Some None |- _ => destruct H
           end;
    first [discriminate | congruence | reflexivity | eauto].
Qed.

Lemma keys_valid_fresh : keys_valid (ensureBucket ∅).
Proof.
  exists ∅. split; [reflexivity|]. intros a [v Hv].
  rewrite lookup_empty in Hv. discriminate.
Qed.

Lemma keys_valid_perform (b : Bolt) (c : call) :
  keys_valid b → keys_valid (perform b c).
Proof.
  intros (bkt & Hb & Hk). destruct c as [ctx now addr|ctx addr]; cbn [perform].
  - rewrite AddWallet_cases. cbv zeta.
    destruct (validateSolanaAddress _) as [e|] eqn:Ev; [exists bkt; auto|].
    destruct (done ctx); [exists bkt; auto|]. rewrite Hb. cbn.
    destruct (bkt !! _) eqn:El; [exists bkt; auto|].
    eexists. split; [apply lookup_insert_eq|].
    intros a [v Hv]. destruct (decide (a = gostrings.TrimSpace addr)) as [->|Hne].
    + now apply validate_decodes.
    + rewrite lookup_insert_ne in Hv by congruence. apply Hk. eauto.
  - rewrite RemoveWallet_cases. cbv zeta.
    destruct (validateSolanaAddress _) as [e|] eqn:Ev; [exists bkt; auto|].
    destruct (done ctx); [exists bkt; auto|]. rewrite Hb. cbn.
    eexists. split; [apply lookup_insert_eq|].
    intros a [v Hv]. apply lookup_delete_Some in Hv as [_ Hv]. apply Hk. eauto.
Qed.

Lemma keys_valid_all (cs : list call) (b : Bolt) :
  keys_valid b → keys_valid (perform_all cs b).
Proof.
  revert b. induction cs as [|c cs IH]; intros b Hb; [exact Hb|].
  apply IH. now apply keys_valid_perform.
Qed.

(** X13. A store that started empty holds valid addresses only,
    whatever calls were made on it, with whatever arguments: [ListWallets]
    succeeds and every entry it returns is the base58 text of a 32-byte
    key, free of surrounding white space. *)
Theorem stored_addresses_valid (cs : list call) :
  ∃ l, ListWallets live (perform_all cs (ensureBucket ∅)) = (l, None) ∧
       Forall (λ a, is_address a ∧ gostrings.TrimSpace a = a) l.
Proof.
  destruct (keys_valid_all cs _ keys_valid_fresh) as (bkt & Hb & Hk).
  destruct (ListWallets_ok live _ bkt eq_refl Hb) as (l & Hl & _ & _ & Hin).
  exists l. split; [exact Hl|].
  apply Forall_forall. intros a Ha. apply Hin in Ha.
  split; [now apply Hk | apply is_address_trimmed; now apply Hk].
Qed.

(** X14. After a successful [AddWallet] the trimmed address is
    listed, after a successful [RemoveWallet] it is not, and no other
    entry of the list is touched by either. *)
Theorem listed_after_update
    (ctx : Context) (now addr : string) (b : Bolt) (l : list string) :
  ListWallets ctx b = (l, None) →
  let a := gostrings.TrimSpace addr in
  (∀ b', AddWallet ctx now addr b = (None, b') →
     ∃ l', ListWallets ctx b' = (l', None) ∧
           ∀ x, x ∈ l' ↔ x = a ∨ x ∈ l) ∧
  (∀ b', RemoveWallet ctx addr b = (None, b') →
     ∃ l', ListWallets ctx b' = (l', None) ∧
           ∀ x, x ∈ l' ↔ x ≠ a ∧ x ∈ l).
Proof.
  intros HL a.
  assert (Hctx : done ctx = false).
  { unfold ListWallets in HL. destruct (done ctx); [discriminate|reflexivity]. }
  assert (Hb : ∃ bkt, b !! walletsBucket = Some bkt) .
  { unfold ListWallets in HL. rewrite Hctx in HL.
    destruct (b !! walletsBucket); [eauto|discriminate]. }
  destruct Hb as [bkt Hb].
  destruct (ListWallets_ok ctx b bkt Hctx Hb) as (l0 & Hl0 & _ & _ & Hin).
  rewrite HL in Hl0. injection Hl0 as <-.
  split; intros b'.
  - rewrite AddWallet_cases. cbv zeta. fold a.
    destruct (validateSolanaAddress a); [discriminate|].
    rewrite Hctx, Hb. intros [= <-].
    destruct (bkt !! a) as [v|] eqn:Ea.
    + exists l. split; [exact HL|]. intros x. split; [auto|].
      intros [->|Hx]; [|exact Hx]. apply Hin. eauto.
    + destruct (ListWallets_ok ctx (<[walletsBucket := <[a := now]> bkt]> b)
                  (<[a := now]> bkt) Hctx (lookup_insert_eq _ _ _))
        as (l' & Hl' & _ & _ & Hin').
      exists l'. split; [exact Hl'|]. intros x.
      rewrite Hin', Hin. destruct (decide (x = a)) as [->|Hne].
      * rewrite lookup_insert_eq. split; eauto.
      * rewrite lookup_insert_ne by congruence. tauto.
  - rewrite RemoveWallet_cases. cbv zeta. fold a.
    destruct (validateSolanaAddress a); [discriminate|].
    rewrite Hctx, Hb. intros [= <-].
    destruct (ListWallets_ok ctx (<[walletsBucket := delete a bkt]> b)
                (delete a bkt) Hctx (lookup_insert_eq _ _ _))
      as (l' & Hl' & _ & _ & Hin').
    exists l'. split; [exact Hl'|]. intros x.
    rewrite Hin', Hin. destruct (decide (x = a)) as [->|Hne].
    + rewrite lookup_delete_eq. split; [intros [? ?]; discriminate|tauto].
    + rewrite lookup_delete_ne by congruence. tauto.
Qed.

(** X15. Removing an address that was just added to a store which did
    not hold it gives back the store as it was; removing one that was
    already there does not. *)
Theorem add_then_remove
    (ctx : Context) (now addr : string) (b : Bolt) (bkt : Bucket) :
  done ctx = false → b !! walletsBucket = Some bkt → is_address addr →
  let b1 := (AddWallet ctx now addr b).2 in
  let b2 := (RemoveWallet ctx addr b1).2 in
  (bkt !! addr = None → b2 = b) ∧
  (is_Some (bkt !! addr) → b2 ≠ b) ∧
  b2 = (RemoveWallet ctx addr b).2.
Proof.
  intros Hctx Hb Ha. pose proof (is_address_trimmed _ Ha) as Ht.
  pose proof (proj2 (validate_iff_aux addr) Ha) as Hv.
  cbv zeta. rewrite (AddWallet_ok ctx now addr b bkt Hctx Hb Hv Ht).
  rewrite (RemoveWallet_ok ctx addr b bkt Hctx Hb Hv Ht). cbn [snd].
  assert (H2 : ∀ b1 bkt1, b1 !! walletsBucket = Some bkt1 →
             (RemoveWallet ctx addr b1).2 = <[walletsBucket := delete addr bkt1]> b1).
  { intros b1 bkt1 H1. now rewrite (RemoveWallet_ok ctx addr b1 bkt1 Hctx H1 Hv Ht). }
  destruct (bkt !! addr) as [v|] eqn:El.
  - rewrite (H2 b bkt Hb). split; [discriminate|]. split; [|reflexivity].
    intros _ Heq.
    assert (Hl : (<[walletsBucket:=delete addr bkt]> b) !! walletsBucket
                 = Some bkt) by (rewrite Heq; exact Hb).
    rewrite lookup_insert_eq in Hl. injection Hl as Hl.
    assert (Hx : delete addr bkt !! addr = Some v) by (rewrite Hl; exact El).
    rewrite lookup_delete_eq in Hx. discriminate.
  - rewrite (H2 _ (<[addr := now]> bkt) (lookup_insert_eq _ _ _)).
    rewrite insert_insert_eq, delete_insert_eq.
    rewrite (delete_id bkt addr El).
    split; [intros _; now apply insert_id|].
    split; [intros [? ?]; discriminate|reflexivity].
Qed.

(** *** The length of an address *)

Lemma indexOf_bound (c : ascii) (s : string) (i d : N) :
  indexOf c s i = Some d → (i <= d < i + N.of_nat (String.length s))%N.
Proof.
  revert i. induction s as [|a s IH]; intros i; cbn [indexOf String.length].
  - discriminate.
  - destruct (Ascii.eqb a c).
    + intros [= <-]. lia.
    + intros H. apply IH in H. lia.
Qed.

Lemma b58Digit_bound (c : ascii) (d : N) : b58Digit c = Some d → (d < 58)%N.
Proof.
  intros H. apply indexOf_bound in H. vm_compute String.length in H. lia.
Qed.

Lemma b58Digit_zero (c : ascii) : b58Digit c = Some 0%N → c = "1"%char.
Proof.
  destruct c as [[] [] [] [] [] [] [] []]; vm_compute; intros H;
    first [reflexivity | discriminate H].
Qed.

Lemma leadingOnes_other (c : ascii) (s : string) :
  c ≠ "1"%char → leadingOnes (String c s) = O.
Proof.
  destruct c as [[] [] [] [] [] [] [] []]; intros H;
    first [reflexivity | contradiction H; reflexivity].
Qed.

Lemma b58Value_bounds (s : string) (acc v : N) :
  b58Value s acc = Some v →
  (acc * 58 ^ N.of_nat (String.length s) <= v
   < (acc + 1) * 58 ^ N.of_nat (String.length s))%N.
Proof.
  revert acc. induction s as [|c s IH]; intros acc; cbn [b58Value String.length].
  - intros [= <-]. cbn. lia.
  - destruct (b58Digit c) as [d|] eqn:Ed; [|discriminate].
    intros H. apply IH in H. apply b58Digit_bound in Ed.
    rewrite Nat2N.inj_succ, N.pow_succ_r'.
    set (p := (58 ^ N.of_nat (String.length s))%N) in *. nia.
Qed.

(** The value of a text, against the number of its characters after the
    leading ones. *)
Lemma b58Value_size (a : string) (v : N) :
  b58Value a 0 = Some v →
  ∃ m : nat, String.length a = (leadingOnes a + m)%nat ∧
    ((m = O ∧ v = 0%N) ∨
     (58 ^ N.of_nat (Nat.pred m) <= v < 58 ^ N.of_nat m)%N ∧ m ≠ O).
Proof.
  induction a as [|c s IH]; intros H.
  - injection H as <-. exists O. split; [reflexivity|]. left. auto.
  - destruct (Ascii.eqb_spec c "1"%char) as [->|Hc].
    + change (b58Value (String "1" s) 0) with (b58Value s 0) in H.
      destruct (IH H) as (m & Hm & Hv). exists m.
      split; [|exact Hv]. cbn [leadingOnes String.length]. lia.
    + rewrite leadingOnes_other by exact Hc.
      exists (S (String.length s)). split; [reflexivity|]. right.
      split; [|discriminate].
      cbn [b58Value] in H.
      destruct (b58Digit c) as [d|] eqn:Ed; [|discriminate].
      assert (Hd0 : d ≠ 0%N) by (intros ->; now apply Hc, b58Digit_zero).
      pose proof (b58Digit_bound _ _ Ed) as Hd.
      apply b58Value_bounds in H.
      cbn [Nat.pred]. rewrite Nat2N.inj_succ, N.pow_succ_r'.
      set (p := (58 ^ N.of_nat (String.length s))%N) in *. nia.
Qed.

Lemma size_div_256 (v : N) : (0 < v)%N → (N.size (v / 256) < N.size v)%N.
Proof.
  intros Hv. destruct (N.eq_dec (v / 256)%N 0%N) as [->|Hw].
  - destruct v; [lia|]. cbn. lia.
  - apply (N.pow_lt_mono_r_iff 2%N); [lia|].
    pose proof (N.size_le (v / 256)%N) as H1.
    rewrite N.succ_double_spec in H1.
    pose proof (N.size_gt v) as H2.
    pose proof (N.Div0.mul_div_le v 256%N) as H3. lia.
Qed.

Lemma bytesOfPos_length (fuel : nat) (v : N) (acc : list N) (n : nat) :
  (v < 256 ^ N.of_nat n)%N →
  (n = O ∨ 256 ^ N.of_nat (Nat.pred n) <= v)%N →
  (N.to_nat (N.size v) <= fuel)%nat →
  List.length (bytesOfPos fuel v acc) = (List.length acc + n)%nat.
Proof.
  revert v acc n. induction fuel as [|fuel IH]; intros v acc n Hlt Hge Hf.
  - assert (v = 0%N) as -> by (destruct v; [reflexivity|cbn in Hf; lia]).
    destruct Hge as [->|Hge]; [cbn; lia|].
    pose proof (N.pow_nonzero 256%N (N.of_nat (Nat.pred n)) ltac:(lia)). lia.
  - cbn [bytesOfPos]. destruct (N.eqb_spec v 0%N) as [->|Hv].
    + destruct Hge as [->|Hge]; [lia|].
      pose proof (N.pow_nonzero 256%N (N.of_nat (Nat.pred n)) ltac:(lia)). lia.
    + destruct n as [|n]; [cbn in Hlt; lia|].
      rewrite (IH (v / 256)%N ((v mod 256)%N :: acc) n).
      * cbn [List.length]. lia.
      * rewrite Nat2N.inj_succ, N.pow_succ_r' in Hlt.
        apply N.Div0.div_lt_upper_bound. lia.
      * destruct n as [|n']; [now left|right].
        destruct Hge as [Hge|Hge]; [discriminate|].
        cbn [Nat.pred] in *. rewrite Nat2N.inj_succ, N.pow_succ_r' in Hge.
        apply N.div_le_lower_bound; lia.
      * pose proof (size_div_256 v ltac:(lia)). lia.
Qed.

(** The number of base-256 digits. *)
Lemma bytesOfN_length (v : N) (n : nat) :
  List.length (bytesOfN v) = n →
  (v < 256 ^ N.of_nat n)%N ∧ (n = O ∨ 256 ^ N.of_nat (Nat.pred n) <= v)%N.
Proof.
  intros <-. unfold bytesOfN.
  destruct (N.eq_dec v 0%N) as [->|Hv]; [cbn; split; [lia|now left]|].
  set (k := N.to_nat (N.log2 v / 8)%N).
  assert (Hk : ((256 ^ N.of_nat k <= v)%N ∧ (v < 256 ^ N.of_nat (S k))%N)).
  { unfold k. rewrite Nat2N.inj_succ, N2Nat.id.
    change 256%N with (2 ^ 8)%N. rewrite <- !N.pow_mul_r.
    destruct (N.log2_spec v ltac:(lia)) as [H1 H2].
    pose proof (N.Div0.mul_div_le (N.log2 v) 8%N) as H3.
    pose proof (N.mul_succ_div_gt (N.log2 v) 8%N ltac:(lia)) as H4.
    split.
    - apply N.le_trans with (2 ^ N.log2 v)%N; [|exact H1].
      apply N.pow_le_mono_r; lia.
    - apply N.lt_le_trans with (2 ^ N.succ (N.log2 v))%N; [exact H2|].
      apply N.pow_le_mono_r; lia. }
  rewrite (bytesOfPos_length _ v [] (S k)); [|tauto|right; tauto|lia].
  cbn [List.length Nat.add]. split; [tauto|right; tauto].
Qed.

Lemma b58Decode_parts (a : string) (decoded : list N) :
  b58Decode a = Some decoded →
  ∃ v, b58Value a 0 = Some v ∧
       decoded = List.repeat 0%N (leadingOnes a) ++ bytesOfN v.
Proof.
  unfold b58Decode. destruct a as [|c s]; [discriminate|].
  destruct (b58Value (String c s) 0) as [v|]; [|discriminate].
  intros [= <-]. eauto.
Qed.

Lemma pow58_44 : (256 ^ 32 <= 58 ^ 44)%N.
Proof. vm_compute. discriminate. Qed.

(** X16. An address has between 32 and 44 characters: 32 for the
    all-zero key, written as thirty-two ones, and never more than 44. *)
Theorem address_length (a : string) :
  is_address a → (32 <= String.length a <= 44)%nat.
Proof.
  intros (decoded & Hd & Hl).
  destruct (b58Decode_parts a decoded Hd) as (v & Ev & ->).
  rewrite length_app, repeat_length in Hl.
  destruct (b58Value_size a v Ev) as (m & Hm & Hv).
  set (n := List.length (bytesOfN v)) in *.
  destruct (bytesOfN_length v n eq_refl) as [Hlt Hge].
  rewrite Hm. destruct Hv as [[-> ->]|[[Hv1 Hv2] Hm0]].
  - assert (n = O) as -> by (subst n; reflexivity). lia.
  - destruct Hge as [Hn|Hge].
    { rewrite Hn in Hlt. cbn in Hlt.
      pose proof (N.pow_nonzero 58%N (N.of_nat (Nat.pred m)) ltac:(lia)). lia. }
    assert (Hn0 : n ≠ O).
    { intros Hn. rewrite Hn in Hlt. cbn in Hlt.
      pose proof (N.pow_nonzero 58%N (N.of_nat (Nat.pred m)) ltac:(lia)). lia. }
    assert (Hlow : (n <= m)%nat).
    { destruct (Nat.le_gt_cases n m) as [|Hgt]; [assumption|exfalso].
      assert (58 ^ N.of_nat m <= 256 ^ N.of_nat (Nat.pred n))%N; [|lia].
      apply N.le_trans with (58 ^ N.of_nat (Nat.pred n))%N.
      - apply N.pow_le_mono_r; lia.
      - apply N.pow_le_mono_l; lia. }
    assert (Hup : (m <= n + 12)%nat).
    { destruct (Nat.le_gt_cases m (n + 12)) as [|Hgt]; [assumption|exfalso].
      assert (256 ^ N.of_nat n <= 58 ^ N.of_nat (Nat.pred m))%N; [|lia].
      apply N.le_trans with (58 ^ N.of_nat (n + 12))%N;
        [|apply N.pow_le_mono_r; lia].
      assert (H1 : (256 ^ N.of_nat n * 58 ^ N.of_nat (32 - n)
                    <= 256 ^ N.of_nat n * 256 ^ N.of_nat (32 - n))%N).
      { apply N.mul_le_mono_l. apply N.pow_le_mono_l. lia. }
      assert (H2 : (256 ^ N.of_nat n * 256 ^ N.of_nat (32 - n) = 256 ^ 32)%N).
      { rewrite <- N.pow_add_r. f_equal. lia. }
      assert (H3 : (58 ^ N.of_nat (n + 12) * 58 ^ N.of_nat (32 - n) = 58 ^ 44)%N).
      { rewrite <- N.pow_add_r. f_equal. lia. }
      pose proof pow58_44 as H4.
      assert (H5 : (0 < 58 ^ N.of_nat (32 - n))%N).
      { pose proof (N.pow_nonzero 58%N (N.of_nat (32 - n)) ltac:(lia)). lia. }
      nia. }
    lia.
Qed.

(** *** Blanks around an address *)

Lemma blank_stripped (c : ascii) (s : string) :
  gostrings.IndexByte c asciiSpace = true →
  gostrings.stripAny gostrings.spaceRunes (String c s) = Some s ∧
  gostrings.stripAny (List.map gostrings.rev gostrings.spaceRunes) (String c s)
  = Some s.
Proof.
  destruct c as [[] [] [] [] [] [] [] []]; vm_compute; intros H;
    first [discriminate H | split; reflexivity].
Qed.

Lemma string_length_app (s1 s2 : string) :
  String.length (s1 ++ s2) = (String.length s1 + String.length s2)%nat.
Proof.
  induction s1 as [|c s1 IH]; [reflexivity|].
  change (String c s1 ++ s2)%string with (String c (s1 ++ s2)).
  cbn [String.length Nat.add]. now f_equal.
Qed.

Lemma trimLeftLoop_blanks (runes : list string) (p s : string) :
  (∀ c s', gostrings.IndexByte c asciiSpace = true →
           gostrings.stripAny runes (String c s') = Some s') →
  blanks p = true →
  gostrings.trimLeftLoop (String.length (p ++ s)) runes (p ++ s)
  = gostrings.trimLeftLoop (String.length s) runes s.
Proof.
  intros Hr. induction p as [|c p IH]; [reflexivity|].
  cbn [blanks]. intros [Hc Hp]%andb_true_iff.
  change (String c p ++ s)%string with (String c (p ++ s)).
  cbn [String.length gostrings.trimLeftLoop].
  rewrite (Hr c _ Hc). now apply IH.
Qed.

Lemma list_ascii_app (s1 s2 : string) :
  list_ascii_of_string (s1 ++ s2)
  = (list_ascii_of_string s1 ++ list_ascii_of_string s2)%list.
Proof.
  induction s1 as [|c s1 IH]; [reflexivity|].
  change (String c s1 ++ s2)%string with (String c (s1 ++ s2)).
  cbn [list_ascii_of_string app]. now f_equal.
Qed.

Lemma string_of_list_app (l1 l2 : list ascii) :
  string_of_list_ascii (l1 ++ l2)
  = (string_of_list_ascii l1 ++ string_of_list_ascii l2)%string.
Proof.
  induction l1 as [|c l1 IH]; [reflexivity|].
  cbn [string_of_list_ascii app].
  change (String c ?x ++ ?y)%string with (String c (x ++ y)). now f_equal.
Qed.

Lemma rev_app (s1 s2 : string) :
  gostrings.rev (s1 ++ s2) = (gostrings.rev s2 ++ gostrings.rev s1)%string.
Proof.
  unfold gostrings.rev.
  now rewrite list_ascii_app, List.rev_app_distr, string_of_list_app.
Qed.

Lemma rev_length (s : string) : String.length (gostrings.rev s) = String.length s.
Proof.
  unfold gostrings.rev.
  induction s as [|c s IH]; [reflexivity|].
  cbn [list_ascii_of_string List.rev].
  rewrite string_of_list_app, string_length_app, IH. cbn. lia.
Qed.

Lemma blanks_list (s : string) :
  blanks s = true ↔
  Forall (λ c, gostrings.IndexByte c asciiSpace = true) (list_ascii_of_string s).
Proof.
  induction s as [|c s IH]; cbn [blanks list_ascii_of_string].
  - split; [constructor|reflexivity].
  - rewrite andb_true_iff, Forall_cons, IH. reflexivity.
Qed.

Lemma blanks_rev (s : string) : blanks s = true → blanks (gostrings.rev s) = true.
Proof.
  rewrite !blanks_list. unfold gostrings.rev.
  rewrite list_ascii_of_string_of_list_ascii. apply List.Forall_rev.
Qed.

Lemma TrimSpace_padded (p1 p2 a : string) :
  blanks p1 = true → blanks p2 = true → allB58 a = true → a ≠ EmptyString →
  gostrings.TrimSpace (p1 ++ a ++ p2) = a.
Proof.
  intros H1 H2 Ha Hne. unfold gostrings.TrimSpace.
  assert (HL : gostrings.TrimLeftSpace (p1 ++ a ++ p2) = (a ++ p2)%string).
  { unfold gostrings.TrimLeftSpace.
    rewrite trimLeftLoop_blanks;
      [|intros c s' Hc; exact (proj1 (blank_stripped c s' Hc))|exact H1].
    destruct a as [|c a']; [contradiction|].
    change (String c a' ++ p2)%string with (String c (a' ++ p2)).
    apply trimLeftLoop_none.
    cbn [allB58] in Ha. apply andb_true_iff in Ha as [Hc _].
    exact (proj1 (b58char_not_space c _ Hc)). }
  rewrite HL. unfold gostrings.TrimRightSpace.
  rewrite <- (rev_length (a ++ p2)), rev_app.
  rewrite trimLeftLoop_blanks;
    [|intros c s' Hc; exact (proj2 (blank_stripped c s' Hc))
     |now apply blanks_rev].
  rewrite trimLeftLoop_none; [apply rev_rev|].
  exact (proj2 (stripAny_b58 _ (allB58_rev a Ha))).
Qed.

(** X17. Blanks before and after an address make no difference to the
    store: the calls trim them off before looking at it. *)
Theorem padding_ignored
    (ctx : Context) (now p1 p2 a : string) (b : Bolt) :
  blanks p1 = true → blanks p2 = true → is_address a →
  AddWallet ctx now (p1 ++ a ++ p2) b = AddWallet ctx now a b ∧
  RemoveWallet ctx (p1 ++ a ++ p2) b = RemoveWallet ctx a b.
Proof.
  intros H1 H2 (decoded & Hd & Hl).
  destruct (b58Decode_all _ _ Hd) as [Hne Hall].
  pose proof (TrimSpace_padded p1 p2 a H1 H2 Hall Hne) as Hp.
  pose proof (TrimSpace_b58 a Hall) as Ht.
  unfold AddWallet, RemoveWallet. cbv zeta. rewrite Hp, Ht. split; reflexivity.
Qed.

Lemma zeroKey_address : is_address zeroKey.
Proof. exists (List.repeat 0%N 32). split; vm_compute; reflexivity. Qed.

Lemma listed_after_update_witness :
  let b := ensureBucket ∅ in
  ListWallets live b = ([], None) ∧
  (∀ b', AddWallet live "t1" zeroKey b = (None, b') →
     ∃ l', ListWallets live b' = (l', None) ∧
           ∀ x, x ∈ l' ↔ x = gostrings.TrimSpace zeroKey ∨ x ∈ []) ∧
  (∀ b', RemoveWallet live zeroKey b = (None, b') →
     ∃ l', ListWallets live b' = (l', None) ∧
           ∀ x, x ∈ l' ↔ x ≠ gostrings.TrimSpace zeroKey ∧ x ∈ []).
Proof.
  intros b.
  assert (HL : ListWallets live b = ([], None)) by (vm_compute; reflexivity).
  split; [exact HL|].
  exact (listed_after_update live "t1" zeroKey b [] HL).
Defined.

Lemma add_then_remove_witness :
  let b := ensureBucket ∅ in
  b !! walletsBucket = Some ∅ ∧
  (RemoveWallet live zeroKey (AddWallet live "t1" zeroKey b).2).2 = b.
Proof.
  intros b.
  assert (Hb : b !! walletsBucket = Some ∅) by (vm_compute; reflexivity).
  split; [exact Hb|].
  destruct (add_then_remove live "t1" zeroKey b ∅ eq_refl Hb zeroKey_address)
    as (H1 & _ & _).
  apply H1. apply lookup_empty.
Defined.

Lemma address_length_witness : (32 <= String.length zeroKey <= 44)%nat.
Proof. exact (address_length zeroKey zeroKey_address). Defined.

Lemma padding_ignored_witness :
  let b := ensureBucket ∅ in
  AddWallet live "t1" ("  " ++ zeroKey ++ " ") b = AddWallet live "t1" zeroKey b ∧
  RemoveWallet live ("  " ++ zeroKey ++ " ") b = RemoveWallet live zeroKey b.
Proof.
  intros b.
  exact (padding_ignored live "t1" "  " " " zeroKey b eq_refl eq_refl
           zeroKey_address).
Defined.

(** *** Calls on different addresses *)

Lemma is_address_valid (a : string) :
  is_address a → validateSolanaAddress a = None.
Proof. apply validate_iff_aux. Qed.

Lemma Add_result (now a : string) (b : Bolt) (bkt : Bucket) :
  is_address a → b !! walletsBucket = Some bkt →
  ∃ bkt', (AddWallet live now a b).2 = <[walletsBucket := bkt']> b ∧
          bkt' = match bkt !! a with Some _ => bkt | None => <[a := now]> bkt end.
Proof.
  intros Ha Hb.
  rewrite (AddWallet_ok live now a b bkt eq_refl Hb (is_address_valid a Ha)
             (is_address_trimmed a Ha)). cbn [snd].
  eexists. split; [|reflexivity].
  destruct (bkt !! a); [|reflexivity]. symmetry. now apply insert_id.
Qed.

Lemma Remove_result (a : string) (b : Bolt) (bkt : Bucket) :
  is_address a → b !! walletsBucket = Some bkt →
  (RemoveWallet live a b).2 = <[walletsBucket := delete a bkt]> b.
Proof.
  intros Ha Hb.
  now rewrite (RemoveWallet_ok live a b bkt eq_refl Hb (is_address_valid a Ha)
                 (is_address_trimmed a Ha)).
Qed.

(** X23. Calls on two different addresses do not interfere: the
    database is the same whichever of the two calls comes first, for two
    additions, two removals, and an addition with a removal. *)
Theorem calls_commute
    (now1 now2 a1 a2 : string) (b : Bolt) (bkt : Bucket) :
  b !! walletsBucket = Some bkt → is_address a1 → is_address a2 → a1 ≠ a2 →
  perform_all [Add live now1 a1; Add live now2 a2] b
  = perform_all [Add live now2 a2; Add live now1 a1] b ∧
  perform_all [Remove live a1; Remove live a2] b
  = perform_all [Remove live a2; Remove live a1] b ∧
  perform_all [Add live now1 a1; Remove live a2] b
  = perform_all [Remove live a2; Add live now1 a1] b.
Proof.
  intros Hb H1 H2 Hne. cbn [perform_all fold_left perform].
  destruct (Add_result now1 a1 b bkt H1 Hb) as (k1 & E1 & K1).
  destruct (Add_result now2 a2 b bkt H2 Hb) as (k2 & E2 & K2).
  pose proof (Remove_result a1 b bkt H1 Hb) as R1.
  pose proof (Remove_result a2 b bkt H2 Hb) as R2.
  rewrite E1, E2, R1, R2.
  destruct (Add_result now2 a2 (<[walletsBucket := k1]> b) k1 H2
              (lookup_insert_eq _ _ _)) as (k12 & E12 & K12).
  destruct (Add_result now1 a1 (<[walletsBucket := k2]> b) k2 H1
              (lookup_insert_eq _ _ _)) as (k21 & E21 & K21).
  destruct (Add_result now1 a1 (<[walletsBucket := delete a2 bkt]> b)
              (delete a2 bkt) H1 (lookup_insert_eq _ _ _))
    as (k31 & E31 & K31).
  rewrite E12, E21, E31.
  rewrite (Remove_result a2 (<[walletsBucket := delete a1 bkt]> b)
             (delete a1 bkt) H2 (lookup_insert_eq _ _ _)).
  rewrite (Remove_result a1 (<[walletsBucket := delete a2 bkt]> b)
             (delete a2 bkt) H1 (lookup_insert_eq _ _ _)).
  rewrite (Remove_result a2 (<[walletsBucket := k1]> b) k1 H2
             (lookup_insert_eq _ _ _)).
  rewrite !insert_insert_eq.
  assert (L12 : k1 !! a2 = bkt !! a2).
  { rewrite K1. destruct (bkt !! a1); [reflexivity|].
    now rewrite lookup_insert_ne. }
  assert (L21 : k2 !! a1 = bkt !! a1).
  { rewrite K2. destruct (bkt !! a2); [reflexivity|].
    rewrite lookup_insert_ne; [reflexivity|congruence]. }
  assert (L31 : delete a2 bkt !! a1 = bkt !! a1).
  { rewrite lookup_delete_ne; [reflexivity|congruence]. }
  split; [|split]; f_equal.
  - rewrite K12, K21, L12, L21, K1, K2.
    destruct (bkt !! a1), (bkt !! a2); try reflexivity.
    now apply insert_insert_ne.
  - apply delete_delete.
  - rewrite K31, L31, K1.
    destruct (bkt !! a1); [reflexivity|].
    apply delete_insert_ne. congruence.
Qed.

Lemma calls_commute_witness :
  let a2 := "1111111111111111111111111111111z"%string in
  let b := ensureBucket ∅ in
  perform_all [Add live "t1" zeroKey; Add live "t2" a2] b
  = perform_all [Add live "t2" a2; Add live "t1" zeroKey] b.
Proof.
  intros a2 b.
  assert (Hb : b !! walletsBucket = Some ∅) by (vm_compute; reflexivity).
  assert (H2 : is_address a2).
  { exists (List.repeat 0%N 31 ++ [57%N]). split; vm_compute; reflexivity. }
  assert (Hne : zeroKey ≠ a2) by discriminate.
  exact (proj1 (calls_commute "t1" "t2" zeroKey a2 b ∅ Hb zeroKey_address H2 Hne)).
Defined.

End store_more.

(* ================================================================== *)
(** ** Facts about the Telegram handler *)
(* ================================================================== *)

Module telegram_facts.
Import telegram.

Lemma append_assoc (s1 s2 s3 : string) :
  ((s1 ++ s2) ++ s3 = s1 ++ (s2 ++ s3))%string.
Proof.
  induction s1 as [|c s1 IH]; [reflexivity|].
  change (String c s1 ++ s2)%string with (String c (s1 ++ s2)).
  change (String c ?x ++ ?y)%string with (String c (x ++ y)). now f_equal.
Qed.

Lemma has_markup_app (s1 s2 : string) :
  has_markup (s1 ++ s2) = has_markup s1 || has_markup s2.
Proof.
  induction s1 as [|c s1 IH]; [reflexivity|].
  change (String c s1 ++ s2)%string with (String c (s1 ++ s2)).
  cbn [has_markup]. rewrite IH. apply orb_assoc.
Qed.

Lemma escapeByte_clean (c : ascii) : has_markup (escapeByte c) = false.
Proof.
  destruct c as [[] [] [] [] [] [] [] []]; vm_compute; reflexivity.
Qed.

Lemma escapeHTML_app (s1 s2 : string) :
  escapeHTML (s1 ++ s2) = (escapeHTML s1 ++ escapeHTML s2)%string.
Proof.
  induction s1 as [|c s1 IH]; [reflexivity|].
  change (String c s1 ++ s2)%string with (String c (s1 ++ s2)).
  cbn [escapeHTML]. rewrite IH. symmetry. apply append_assoc.
Qed.

(** X18. The text [escapeHTML] returns holds no [<], no [>] and no
    double quote, so it can neither open nor close a tag or an attribute
    value; and escaping goes piece by piece: the escape of a
    concatenation is the concatenation of the escapes. *)
Theorem escapeHTML_no_markup (s1 s2 : string) :
  has_markup (escapeHTML s1) = false ∧
  escapeHTML (s1 ++ s2) = (escapeHTML s1 ++ escapeHTML s2)%string.
Proof.
  split; [|apply escapeHTML_app].
  induction s1 as [|c s1 IH]; [reflexivity|].
  cbn [escapeHTML]. now rewrite has_markup_app, escapeByte_clean, IH.
Qed.

(** The escape of a byte never starts the escape of another one, which
    makes the escaped text readable back in one way only. *)
Lemma escapeByte_prefix (c1 c2 : ascii) (r1 r2 : string) :
  (escapeByte c1 ++ r1 = escapeByte c2 ++ r2)%string → c1 = c2 ∧ r1 = r2.
Proof.
  unfold escapeByte.
  destruct (Ascii.eqb_spec c1 "&") as [->|H1];
  [|destruct (Ascii.eqb_spec c1 "<") as [->|H2];
   [|destruct (Ascii.eqb_spec c1 ">") as [->|H3];
    [|destruct (Ascii.eqb_spec c1 dquote) as [->|H4]]]];
  (destruct (Ascii.eqb_spec c2 "&") as [->|G1];
  [|destruct (Ascii.eqb_spec c2 "<") as [->|G2];
   [|destruct (Ascii.eqb_spec c2 ">") as [->|G3];
    [|destruct (Ascii.eqb_spec c2 dquote) as [->|G4]]]]);
  intros H; vm_compute in H;
  first [ injection H; intros; subst; split; first [reflexivity | congruence]
        | discriminate H
        | exfalso; injection H; intros; congruence ].
Qed.

(** X19. [escapeHTML] loses nothing: two texts with the same escape
    are the same text. *)
Theorem escapeHTML_injective (s1 s2 : string) :
  escapeHTML s1 = escapeHTML s2 → s1 = s2.
Proof.
  revert s2. induction s1 as [|c1 s1 IH]; intros [|c2 s2] H.
  - reflexivity.
  - exfalso. cbn [escapeHTML] in H. revert H. unfold escapeByte.
    repeat (destruct (Ascii.eqb c2 _)); discriminate.
  - exfalso. cbn [escapeHTML] in H. revert H. unfold escapeByte.
    repeat (destruct (Ascii.eqb c1 _)); discriminate.
  - cbn [escapeHTML] in H. apply escapeByte_prefix in H as [-> H].
    f_equal. now apply IH.
Qed.

Lemma escapeHTML_injective_witness :
  escapeHTML "a<b" = "a&lt;b"%string ∧ "a<b"%string = "a<b"%string.
Proof.
  split; [reflexivity|].
  exact (escapeHTML_injective "a<b" "a<b" eq_refl).
Defined.

(** Membership in a short, explicit list of effects. *)
Ltac in_effects :=
  cbn; split; [|split]; intros H;
  repeat match goal with
         | H : _ ∨ _ |- _ => destruct H as [H|H]
         | H : False |- _ => destruct H
         | H : AddWallet _ = AddWallet _ |- _ => injection H as <-
         | H : Track _ = Track _ |- _ => injection H as <-
         | H : RemoveWallet _ = RemoveWallet _ |- _ => injection H as <-
         end;
  try discriminate; intuition eauto.

Section HandlerFacts.

Variable ToLower : string → string.
Variable Report : Type.
Variable healthMsg : Report → string.

#[local] Abbreviation Answers := (telegram.Answers Report).
#[local] Abbreviation handleCommand :=
  (telegram.handleCommand ToLower Report healthMsg).
#[local] Abbreviation onUpdate :=
  (telegram.onUpdate ToLower Report healthMsg).

Lemma stripPrefix_app (p q s : string) :
  gostrings.stripPrefix (p ++ q) s =
  match gostrings.stripPrefix p s with
  | Some rest => gostrings.stripPrefix q rest
  | None => None
  end.
Proof.
  revert s. induction p as [|a p IH]; intros s; [reflexivity|].
  change (String a p ++ q)%string with (String a (p ++ q)).
  destruct s as [|b s]; cbn [gostrings.stripPrefix]; [reflexivity|].
  destruct (Ascii.eqb a b); [apply IH|reflexivity].
Qed.

(** A text that starts with ["/tracked"] starts with ["/track"]. *)
Lemma HasPrefix_tracked (s : string) :
  HasPrefix s "/tracked" = true → HasPrefix s "/track" = true.
Proof.
  unfold HasPrefix, gostrings.isPrefix.
  change "/tracked"%string with ("/track" ++ "ed")%string.
  rewrite stripPrefix_app.
  destruct (gostrings.stripPrefix "/track" s); [reflexivity|discriminate].
Qed.




End HandlerFacts.

(** *** Addresses in messages *)

Lemma b58char_plain (c : ascii) :
  store.b58char c = true →
  escapeByte c = String c EmptyString ∧ markup c = false.
Proof.
  destruct c as [[] [] [] [] [] [] [] []]; vm_compute; intros H;
    first [discriminate H | split; reflexivity].
Qed.

Lemma allB58_plain (s : string) :
  store.allB58 s = true → escapeHTML s = s ∧ has_markup s = false.
Proof.
  induction s as [|c s IH]; [split; reflexivity|].
  cbn [store.allB58]. intros [Hc Hs]%andb_true_iff.
  destruct (b58char_plain c Hc) as [E1 E2]. destruct (IH Hs) as [I1 I2].
  cbn [escapeHTML has_markup]. rewrite E1, E2, I1, I2. split; reflexivity.
Qed.

Lemma allB58_substring (n : nat) (s : string) :
  store.allB58 s = true → store.allB58 (String.substring 0 n s) = true.
Proof.
  revert s. induction n as [|n IH]; intros [|c s]; try reflexivity.
  cbn [store.allB58 String.substring]. intros [Hc Hs]%andb_true_iff.
  rewrite Hc. cbn. now apply IH.
Qed.

(** X24. A valid address needs no escaping: [escapeHTML] returns it
    unchanged and it holds no markup character, and the same goes for the
    short form a Subscriber made for it puts into its notifications, which
    are sent without escaping. *)
Theorem address_needs_no_escape (wss commitment a : string) :
  store_obs.is_address a →
  let s := tracker.NewSubscriber wss commitment a in
  escapeHTML a = a ∧ has_markup a = false ∧
  tracker.addr s = a ∧
  escapeHTML (tracker.shortAddr s) = tracker.shortAddr s ∧
  has_markup (tracker.shortAddr s) = false.
Proof.
  intros (decoded & Hd & Hl) s.
  destruct (store_facts.b58Decode_all _ _ Hd) as [_ Hall].
  destruct (allB58_plain a Hall) as [E1 E2].
  assert (Ha : tracker.addr s = a) by (cbn; now apply store_facts.TrimSpace_b58).
  split; [exact E1|]. split; [exact E2|]. split; [exact Ha|].
  unfold tracker.shortAddr. rewrite Ha.
  destruct (String.length a <? 4)%nat; [split; assumption|].
  destruct (allB58_plain _ (allB58_substring 4 a Hall)) as [S1 S2].
  rewrite escapeHTML_app, has_markup_app, S1, S2. split; reflexivity.
Qed.

Lemma address_needs_no_escape_witness :
  escapeHTML store_obs.zeroKey = store_obs.zeroKey ∧
  tracker.shortAddr tracker.sampleSubscriber = "1111..."%string.
Proof.
  assert (Ha : store_obs.is_address store_obs.zeroKey).
  { exists (List.repeat 0%N 32). split; vm_compute; reflexivity. }
  destruct (address_needs_no_escape "wss://mainnet.helius-rpc.com" "processed"
              store_obs.zeroKey Ha) as (H1 & _ & _ & _ & _).
  split; [exact H1|vm_compute; reflexivity].
Defined.

End telegram_facts.
